(** * s3fs-go: path resolution and the PUT / GET / DELETE handlers

    A shallow embedding of [main.go].  Go strings are byte sequences and are
    modelled as [list ascii]; the functions of the Go standard library that
    [main.go] calls ([strings.HasPrefix], [strings.TrimPrefix],
    [strings.SplitN], [filepath.Clean], [filepath.Join], [filepath.Abs],
    [filepath.Base], [filepath.Dir]) are transcribed from their Unix
    implementations.  The handlers are programs over the operating-system
    calls they make; two semantics are given for them, the set of call
    traces a handler can produce against any operating system, and an
    interpreter over an in-memory file system. *)

From Stdlib Require Import Ascii String.
From stdpp Require Import base option list strings gmap.

Local Open Scope char_scope.
Local Open Scope list_scope.

(** ** Go strings *)

Abbreviation str := (list ascii).

(** A string literal, as the byte sequence it denotes. *)
Notation "$ s" := (list_ascii_of_string s) (at level 1, s at level 0, format "$ s").

Module strings.

(** [strings.HasPrefix(s, prefix)]:
    [len(s) >= len(prefix) && s[:len(prefix)] == prefix]. *)
Fixpoint HasPrefix (s pre : str) {struct pre} : bool :=
  match pre with
  | [] => true
  | p :: pre' =>
      match s with
      | [] => false
      | c :: s' => bool_decide (c = p) && HasPrefix s' pre'
      end
  end.

(** [strings.TrimPrefix(s, prefix)]: [s] without the leading [prefix], or
    [s] itself when it does not start with [prefix]. *)
Definition TrimPrefix (s pre : str) : str :=
  if HasPrefix s pre then drop (length pre) s else s.

(** [strings.IndexByte(s, c)]: the index of the first [c] in [s]. The
    program only ever searches for the one-byte separator ["/"], for which
    [strings.Index] is [IndexByte]. *)
Fixpoint IndexByte (s : str) (c : ascii) : option nat :=
  match s with
  | [] => None
  | x :: s' => if bool_decide (x = c) then Some 0 else S <$> IndexByte s' c
  end.

(** The loop of [genSplit] with [sepSave = 0]: [n] counts the slots of the
    result that are still free; the last slot takes whatever remains. *)
Fixpoint genSplit (s : str) (sep : ascii) (n : nat) : list str :=
  match n with
  | 0 => []
  | 1 => [s]
  | S n' =>
      match IndexByte s sep with
      | None => [s]
      | Some m => take m s :: genSplit (drop (m + 1) s) sep n'
      end
  end.

(** [strings.SplitN(s, sep, n)] for a one-byte separator and [n >= 0]:
    [n = 0] gives no slice at all, and [n] is capped by [len(s) + 1]. *)
Definition SplitN (s : str) (sep : ascii) (n : nat) : list str :=
  match n with
  | 0 => []
  | _ => genSplit s sep (n `min` (length s + 1))
  end.

(** [strings.Join(elems, sep)]. *)
Fixpoint Join (elems : list str) (sep : str) : str :=
  match elems with
  | [] => []
  | [e] => e
  | e :: rest => e ++ sep ++ Join rest sep
  end.

End strings.

(** ** [path/filepath] on Unix *)

Module filepath.

Definition Separator : ascii := "/".

(** [os.IsPathSeparator]. *)
Definition IsPathSeparator (c : ascii) : bool := bool_decide (c = Separator).

Definition is_dot (c : ascii) : bool := bool_decide (c = ".").

(** [r == n || os.IsPathSeparator(path[r])], on the unread rest of the
    path. *)
Definition end_or_sep (rest : str) : bool :=
  match rest with
  | [] => true
  | c :: _ => IsPathSeparator c
  end.

(** The output buffer of [Clean] is a [lazybuf]: the bytes [buf[0..w)].
    It is modelled by that byte sequence, so [out.w] is its length and
    [out.append(c)] adds [c] at the end.  Truncating the buffer only moves
    [w] down; the bytes above stay readable, which is what the backtracking
    loop relies on.

    [rewind out dotdot w] is the loop
    [for out.w > dotdot && !os.IsPathSeparator(out.index(out.w)) { out.w-- }]
    started at [out.w = w]; it returns the final [out.w]. *)
Fixpoint rewind (out : str) (dotdot w : nat) : nat :=
  match w with
  | 0 => 0
  | S w' =>
      if bool_decide (dotdot < w) && negb (IsPathSeparator (nth w out Separator))
      then rewind out dotdot w'
      else w
  end.

(** [out.w--] followed by the loop above: remove the last element. *)
Definition backtrack (out : str) (dotdot : nat) : str :=
  take (rewind out dotdot (length out - 1)) out.

(** The main loop of [Clean].  [rest] is [path[r:]]; [out] and [dotdot] are
    as in the source.  [copying] is true inside the inner loop that copies a
    real path element byte by byte: the inner loop ends at a separator
    without consuming it, and the separator is then handled by the first
    case of the switch. *)
Fixpoint clean_loop (rooted copying : bool) (rest out : str) (dotdot : nat) : str :=
  match rest with
  | [] => out
  | c :: rest1 =>
      if copying && negb (IsPathSeparator c) then
        clean_loop rooted true rest1 (out ++ [c]) dotdot
      else if IsPathSeparator c then
        (* empty path element *)
        clean_loop rooted false rest1 out dotdot
      else if is_dot c && end_or_sep rest1 then
        (* . element *)
        clean_loop rooted false rest1 out dotdot
      else
        (* real path element: add slash if needed, copy element *)
        let real :=
          let out1 :=
            if (rooted && negb (bool_decide (length out = 1)))
               || (negb rooted && negb (bool_decide (length out = 0)))
            then out ++ [Separator] else out in
          clean_loop rooted true rest1 (out1 ++ [c]) dotdot in
        match rest1 with
        | c1 :: rest2 =>
            if is_dot c && is_dot c1 && end_or_sep rest2 then
              (* .. element: remove to last separator *)
              if bool_decide (dotdot < length out) then
                (* can backtrack *)
                clean_loop rooted false rest2 (backtrack out dotdot) dotdot
              else if negb rooted then
                (* cannot backtrack, but not rooted, so append .. element *)
                let out1 := if bool_decide (0 < length out)
                            then out ++ [Separator] else out in
                let out2 := out1 ++ ["."; "."] in
                clean_loop rooted false rest2 out2 (length out2)
              else
                clean_loop rooted false rest2 out dotdot
            else real
        | [] => real
        end
  end.

(** [filepath.Clean]; there is no volume name on Unix and [FromSlash] is
    the identity. *)
Definition Clean (path : str) : str :=
  match path with
  | [] => ["."]
  | c :: rest =>
      let rooted := IsPathSeparator c in
      let out :=
        if rooted then clean_loop true false rest [Separator] 1
        else clean_loop false false path [] 0 in
      match out with
      | [] => ["."]
      | _ => out
      end
  end.

(** [filepath.Join]: the elements from the first non-empty one on are
    joined with the separator and cleaned; all empty gives the empty string. *)
Fixpoint Join (elem : list str) : str :=
  match elem with
  | [] => []
  | e :: rest =>
      match e with
      | [] => Join rest
      | _ :: _ => Clean (strings.Join elem [Separator])
      end
  end.

(** [filepath.IsAbs]. *)
Definition IsAbs (path : str) : bool := strings.HasPrefix path [Separator].

(** The leading bytes of [s] up to the first separator, and what follows
    them (starting at that separator). *)
Fixpoint elem_of_path (s : str) : str :=
  match s with
  | [] => []
  | c :: s' => if IsPathSeparator c then [] else c :: elem_of_path s'
  end.

Fixpoint after_elem (s : str) : str :=
  match s with
  | [] => []
  | c :: s' => if IsPathSeparator c then s else after_elem s'
  end.

(** The leading separators of [s] removed. *)
Fixpoint skip_seps (s : str) : str :=
  match s with
  | [] => []
  | c :: s' => if IsPathSeparator c then skip_seps s' else s
  end.

(** [filepath.Base]: both loops of the source run from the end of the
    path, so they are written on the reversed path. *)
Definition Base (path : str) : str :=
  match path with
  | [] => ["."]
  | _ =>
      (* strip trailing slashes *)
      let stripped := skip_seps (reverse path) in
      (* find the last element *)
      match reverse (elem_of_path stripped) with
      | [] => [Separator]   (* it had only slashes *)
      | last_elem => last_elem
      end
  end.

(** [filepath.Dir]: everything up to and including the last separator,
    cleaned. *)
Definition Dir (path : str) : str :=
  Clean (reverse (after_elem (reverse path))).

End filepath.

(** ** Errors and the process environment *)

Module syscall.
(** The error numbers the file-system calls of the program can report. *)
Inductive Errno : Set :=
  ENOENT | EACCES | EEXIST | ENOTDIR | EISDIR | ENOTEMPTY | EIO | EBADF.
End syscall.

(** Go [error] values: [errors.New(text)], [*fs.PathError] from the file
    operations of package [os], and [*os.SyscallError] from [os.Getwd]. *)
Inductive error : Type :=
| errorString (text : str)
| PathError (op path : str) (errno : syscall.Errno)
| SyscallError (call : str) (errno : syscall.Errno).

(** A Go result pair [(T, error)]: the value when [err == nil], else the
    error. *)
Inductive result (A : Type) : Type :=
| Ok (a : A)
| Err (e : error).
Arguments Ok {A} a.
Arguments Err {A} e.

Module os.

Definition PathSeparator : ascii := filepath.Separator.

(** [os.IsNotExist]: the error, unwrapped from its [PathError] or
    [SyscallError], is [ENOENT]. *)
Definition IsNotExist (err : error) : bool :=
  match err with
  | PathError _ _ syscall.ENOENT | SyscallError _ syscall.ENOENT => true
  | _ => false
  end.

End os.

(** What [sanitizePath] reads from the process: the package variable
    [storageRootDir], set once in [main] before the server starts, and the
    answer of [os.Getwd] (the program never changes its working directory). *)
Record Env : Type := mkEnv {
  storageRootDir : str;
  Getwd : result str
}.

(** [filepath.Abs] on Unix ([unixAbs]). *)
Definition Abs (env : Env) (path : str) : result str :=
  if filepath.IsAbs path then Ok (filepath.Clean path)
  else
    match Getwd env with
    | Err err => Err err
    | Ok wd => Ok (filepath.Join [wd; path])
    end.

Definition str_eqb (a b : str) : bool := bool_decide (a = b).

(** The double-quote byte, and the file mode [0o755] of [os.MkdirAll]. *)
Definition dquote : ascii := ascii_of_nat 34.
Notation "0o755" := 493%N (only parsing).

Definition ErrPathTraversal : error :=
  errorString $"invalid path: path traversal detected".

(** ** [sanitizePath] *)

Definition sanitizePath (env : Env) (bucket key : str) : result str :=
  (* Join bucket and key under storageRootDir *)
  let joined := filepath.Join [storageRootDir env; bucket; key] in
  (* Clean the path *)
  let cleaned := filepath.Clean joined in
  (* Make both absolute *)
  match Abs env (storageRootDir env) with
  | Err err => Err err
  | Ok absRoot =>
      match Abs env cleaned with
      | Err err => Err err
      | Ok absTarget =>
          (* Ensure absTarget is under absRoot *)
          if negb (strings.HasPrefix absTarget (absRoot ++ [os.PathSeparator]))
             && negb (str_eqb absTarget absRoot)
          then Err ErrPathTraversal
          else Ok absTarget
      end
  end.

(** ** [net/http]: requests and the response writer *)

Module http.

Definition MethodGet : str := $"GET".
Definition MethodPut : str := $"PUT".
Definition MethodDelete : str := $"DELETE".

Definition StatusOK : nat := 200.
Definition StatusNoContent : nat := 204.
Definition StatusBadRequest : nat := 400.
Definition StatusNotFound : nat := 404.
Definition StatusMethodNotAllowed : nat := 405.
Definition StatusInternalServerError : nat := 500.

(** The parts of [*http.Request] the handlers read. *)
Record Request : Type := mkRequest {
  Method : str;
  URL_Path : str;
  Body : str
}.

(** The state of an [http.ResponseWriter]: the header map (each key the
    handlers set holds one value), the status code once [WriteHeader] has
    been called, and the body bytes written so far. *)
Record ResponseWriter : Type := mkResponseWriter {
  Header : gmap (list ascii) (list ascii);
  status : option nat;
  body : str
}.

(** A response writer as the server hands it to a handler. *)
Definition fresh : ResponseWriter := mkResponseWriter ∅ None [].

(** [w.Header().Set(key, value)]. *)
Definition Header_Set (w : ResponseWriter) (key value : str) : ResponseWriter :=
  mkResponseWriter (<[key := value]> (Header w)) (status w) (body w).

(** [w.WriteHeader(code)]: only the first call sets the status. *)
Definition WriteHeader (w : ResponseWriter) (code : nat) : ResponseWriter :=
  match status w with
  | Some _ => w
  | None => mkResponseWriter (Header w) (Some code) (body w)
  end.

(** [w.Write(data)]: an implicit [WriteHeader(StatusOK)] when no status was
    written yet. *)
Definition Write (w : ResponseWriter) (data : str) : ResponseWriter :=
  let w1 := WriteHeader w StatusOK in
  mkResponseWriter (Header w1) (status w1) (body w1 ++ data).

(** [http.Error(w, error, code)]. *)
Definition Error (w : ResponseWriter) (msg : str) (code : nat) : ResponseWriter :=
  let w1 := Header_Set w $"Content-Type" $"text/plain; charset=utf-8" in
  let w2 := Header_Set w1 $"X-Content-Type-Options" $"nosniff" in
  let w3 := WriteHeader w2 code in
  Write w3 (msg ++ [ascii_of_nat 10]).

(** The status the client receives: 200 when the handler returned without
    writing one. *)
Definition StatusCode (w : ResponseWriter) : nat := default StatusOK (status w).

End http.

(** ** Handlers as programs over operating-system calls *)

(** An open [*os.File]. *)
Definition File : Type := nat.

(** An argument of a [log.Printf] call. *)
Inductive logarg : Type :=
| LogStr (s : str)
| LogErr (e : error).

(** A program returning an [A]: either it is done, or it makes one call and
    continues with the answer.
    - [Log]: [log.Printf(format, args...)];
    - [MkdirAll], [Create], [Open], [Remove]: the functions of package [os];
    - [CopyTo f src]: [io.Copy(f, r.Body)], the request body [src] streamed
      into the open file;
    - [CopyFrom f]: [io.Copy(w, f)], answered by the bytes that were copied
      out of the file and the error that ended the copy, if any;
    - [Close]: [f.Close()], whose error the program ignores. *)
Inductive prog (A : Type) : Type :=
| Ret (a : A)
| Log (format : string) (args : list logarg) (k : prog A)
| MkdirAll (path : str) (perm : N) (k : option error -> prog A)
| Create (path : str) (k : result File -> prog A)
| Open (path : str) (k : result File -> prog A)
| Remove (path : str) (k : option error -> prog A)
| CopyTo (f : File) (src : str) (k : option error -> prog A)
| CopyFrom (f : File) (k : str * option error -> prog A)
| Close (f : File) (k : prog A).
Arguments Ret {A} a.
Arguments Log {A} format args k.
Arguments MkdirAll {A} path perm k.
Arguments Create {A} path k.
Arguments Open {A} path k.
Arguments Remove {A} path k.
Arguments CopyTo {A} f src k.
Arguments CopyFrom {A} f k.
Arguments Close {A} f k.

Section Handlers.

Variable env : Env.

Import http.

(** [parts[i]]; the handlers index [parts] only where it is long enough. *)
Definition index (parts : list str) (i : nat) : str := nth i parts [].

(** [uploadHandler] handles [PUT /<bucket>/<key...>]. *)
Definition uploadHandler (w : ResponseWriter) (r : Request) : prog ResponseWriter :=
  (* Only accept PUT *)
  if negb (str_eqb (Method r) MethodPut) then
    Ret (Error w $"Method Not Allowed" StatusMethodNotAllowed)
  else
    (* Trim leading slash, then split off the bucket name *)
    let trimmed := strings.TrimPrefix (URL_Path r) $"/" in
    let parts := strings.SplitN trimmed "/" 2 in
    if bool_decide (length parts < 1) || str_eqb (index parts 0) [] then
      Ret (Error w $"Bad Request: missing bucket" StatusBadRequest)
    else
      let bucket := index parts 0 in
      if bool_decide (length parts = 2) then
        let key := index parts 1 in
        Log "Debug: %s request received for bucket=%s, key=%s"
            [LogStr (Method r); LogStr bucket; LogStr key]
        (* Resolve and sanitize filesystem path *)
        match sanitizePath env bucket key with
        | Err _ => Ret (Error w $"Invalid path" StatusBadRequest)
        | Ok targetPath =>
            (* Ensure the parent directory exists *)
            let parentDir := filepath.Dir targetPath in
            MkdirAll parentDir 0o755 (fun err =>
            match err with
            | Some err =>
                Log "Error creating directories: %v" [LogErr err]
                (Ret (Error w $"Internal Server Error" StatusInternalServerError))
            | None =>
                (* Create/truncate the file and stream the request body into it *)
                Create targetPath (fun res =>
                match res with
                | Err err =>
                    Log "Error creating file: %v" [LogErr err]
                    (Ret (Error w $"Internal Server Error" StatusInternalServerError))
                | Ok f =>
                    (* defer f.Close(): runs when the handler returns *)
                    (* Copy body to file (streaming) *)
                    CopyTo f (Body r) (fun err =>
                    match err with
                    | Some err =>
                        Log "Error writing file: %v" [LogErr err]
                        (let w1 := Error w $"Internal Server Error"
                                     StatusInternalServerError in
                         Close f (Ret w1))
                    | None =>
                        Log "Debug: Successfully processed %s request for bucket=%s, key=%s"
                            [LogStr (Method r); LogStr bucket; LogStr key]
                        (* Respond with 204 No Content *)
                        (let w1 := WriteHeader w StatusNoContent in
                         Close f (Ret w1))
                    end)
                end)
            end)
        end
      else
        (* If no key provided, return 400 *)
        Ret (Error w $"Bad Request: missing key" StatusBadRequest).

(** [downloadHandler] handles [GET /<bucket>/<key...>]. *)
Definition downloadHandler (w : ResponseWriter) (r : Request) : prog ResponseWriter :=
  (* Only accept GET *)
  if negb (str_eqb (Method r) MethodGet) then
    Ret (Error w $"Method Not Allowed" StatusMethodNotAllowed)
  else
    let trimmed := strings.TrimPrefix (URL_Path r) $"/" in
    let parts := strings.SplitN trimmed "/" 2 in
    if bool_decide (length parts < 1) || str_eqb (index parts 0) [] then
      Ret (Error w $"Bad Request: missing bucket" StatusBadRequest)
    else
      let bucket := index parts 0 in
      if bool_decide (length parts = 2) then
        let key := index parts 1 in
        Log "Debug: %s request received for bucket=%s, key=%s"
            [LogStr (Method r); LogStr bucket; LogStr key]
        match sanitizePath env bucket key with
        | Err _ => Ret (Error w $"Invalid path" StatusBadRequest)
        | Ok targetPath =>
            (* Open the file *)
            Open targetPath (fun res =>
            match res with
            | Err err =>
                if os.IsNotExist err then
                  Ret (Error w $"Not Found" StatusNotFound)
                else
                  Log "Error opening file: %v" [LogErr err]
                  (Ret (Error w $"Internal Server Error" StatusInternalServerError))
            | Ok f =>
                (* defer f.Close(): runs when the handler returns *)
                let w1 := Header_Set w $"Content-Type" $"application/octet-stream" in
                let w2 := Header_Set w1 $"Content-Disposition"
                            ($"attachment; filename=" ++ [dquote]
                             ++ filepath.Base key ++ [dquote]) in
                let w3 := WriteHeader w2 StatusOK in
                (* Stream the file back: the bytes copied go to [w.Write] *)
                CopyFrom f (fun '(data, err) =>
                let w4 := match data with [] => w3 | _ => Write w3 data end in
                let finish :=
                  Log "Debug: Successfully processed %s request for bucket=%s, key=%s"
                      [LogStr (Method r); LogStr bucket; LogStr key]
                  (Close f (Ret w4)) in
                match err with
                | Some err => Log "Error streaming file: %v" [LogErr err] finish
                | None => finish
                end)
            end)
        end
      else
        Ret (Error w $"Bad Request: missing key" StatusBadRequest).

(** [deleteHandler] handles [DELETE /<bucket>/<key...>]. *)
Definition deleteHandler (w : ResponseWriter) (r : Request) : prog ResponseWriter :=
  (* Only accept DELETE *)
  if negb (str_eqb (Method r) MethodDelete) then
    Ret (Error w $"Method Not Allowed" StatusMethodNotAllowed)
  else
    let trimmed := strings.TrimPrefix (URL_Path r) $"/" in
    let parts := strings.SplitN trimmed "/" 2 in
    if bool_decide (length parts < 1) || str_eqb (index parts 0) [] then
      Ret (Error w $"Bad Request: missing bucket" StatusBadRequest)
    else
      let bucket := index parts 0 in
      if bool_decide (length parts = 2) then
        let key := index parts 1 in
        Log "Debug: %s request received for bucket=%s, key=%s"
            [LogStr (Method r); LogStr bucket; LogStr key]
        match sanitizePath env bucket key with
        | Err _ => Ret (Error w $"Invalid path" StatusBadRequest)
        | Ok targetPath =>
            (* Delete the file *)
            Remove targetPath (fun err =>
            match err with
            | Some err =>
                if os.IsNotExist err then
                  (* S3 returns 204 even if object doesn't exist *)
                  Ret (WriteHeader w StatusNoContent)
                else
                  Log "Error deleting file: %v" [LogErr err]
                  (Ret (Error w $"Internal Server Error" StatusInternalServerError))
            | None =>
                Log "Debug: Successfully processed %s request for bucket=%s, key=%s"
                    [LogStr (Method r); LogStr bucket; LogStr key]
                (* Successfully deleted - return 204 No Content *)
                (Ret (WriteHeader w StatusNoContent))
            end)
        end
      else
        Ret (Error w $"Bad Request: missing key" StatusBadRequest).

(** The catch-all handler registered in [main]. *)
Definition serve (w : ResponseWriter) (r : Request) : prog ResponseWriter :=
  if str_eqb (Method r) MethodPut then uploadHandler w r
  else if str_eqb (Method r) MethodGet then downloadHandler w r
  else if str_eqb (Method r) MethodDelete then deleteHandler w r
  else Ret (Error w $"Method Not Allowed" StatusMethodNotAllowed).

End Handlers.

(** ** The object a request path names

    The three handlers parse the path by the same lines; [parse_path] names
    the outcome of those lines, for the statements below. *)
Inductive parsed : Type :=
| MissingBucket
| MissingKey
| Object (bucket key : str).

Definition parse_path (path : str) : parsed :=
  let trimmed := strings.TrimPrefix path $"/" in
  let parts := strings.SplitN trimmed "/" 2 in
  if bool_decide (length parts < 1) || str_eqb (index parts 0) [] then MissingBucket
  else if bool_decide (length parts = 2) then Object (index parts 0) (index parts 1)
  else MissingKey.

(** ** Semantics 1: the traces a program can produce

    An event is one call together with the answer the operating system gave.
    [exec p t a] says that [p] returns [a] when its calls are answered as
    recorded in [t]; the answers are arbitrary, so a statement about all
    traces holds for every file system, every fault and every interleaving
    with other requests. *)

Inductive event : Type :=
| EvLog (format : string) (args : list logarg)
| EvMkdirAll (path : str) (perm : N) (err : option error)
| EvCreate (path : str) (res : result File)
| EvOpen (path : str) (res : result File)
| EvRemove (path : str) (err : option error)
| EvCopyTo (f : File) (src : str) (err : option error)
| EvCopyFrom (f : File) (res : str * option error)
| EvClose (f : File).

Inductive exec {A : Type} : prog A -> list event -> A -> Prop :=
| exec_Ret a :
    exec (Ret a) [] a
| exec_Log format args k t a :
    exec k t a -> exec (Log format args k) (EvLog format args :: t) a
| exec_MkdirAll path perm k err t a :
    exec (k err) t a -> exec (MkdirAll path perm k) (EvMkdirAll path perm err :: t) a
| exec_Create path k res t a :
    exec (k res) t a -> exec (Create path k) (EvCreate path res :: t) a
| exec_Open path k res t a :
    exec (k res) t a -> exec (Open path k) (EvOpen path res :: t) a
| exec_Remove path k err t a :
    exec (k err) t a -> exec (Remove path k) (EvRemove path err :: t) a
| exec_CopyTo f src k err t a :
    exec (k err) t a -> exec (CopyTo f src k) (EvCopyTo f src err :: t) a
| exec_CopyFrom f k res t a :
    exec (k res) t a -> exec (CopyFrom f k) (EvCopyFrom f res :: t) a
| exec_Close f k t a :
    exec k t a -> exec (Close f k) (EvClose f :: t) a.

(** Whether an event is a call into the file system (everything but a log
    line). *)
Definition is_fs_call (e : event) : bool :=
  match e with
  | EvLog _ _ => false
  | _ => true
  end.

(** ** Semantics 2: an in-memory file system

    A reference file system to run the handlers on.  Its keys are cleaned
    absolute paths, as [sanitizePath] produces them when the working
    directory is absolute. *)

Module memfs.

(** A directory, or a regular file with its bytes.  [io_fault = Some n]
    describes a file on a failing device: reading it reports [EIO] once [n]
    bytes have been delivered. *)
Inductive node : Type :=
| Dir
| Reg (data : str) (io_fault : option nat).

(** The nodes by path, and the path behind every descriptor handed out so
    far (a descriptor is an index into that list). *)
Record FS : Type := mkFS {
  nodes : gmap (list ascii) node;
  opened : list (list ascii)
}.

Definition empty : FS := mkFS ∅ [].

(** The root directory always exists. *)
Definition node_at (fs : FS) (p : str) : option node :=
  if str_eqb p [filepath.Separator] then Some Dir else nodes fs !! p.

Definition has_child (fs : FS) (p : str) : bool :=
  existsb (fun '(q, _) => strings.HasPrefix q (p ++ [filepath.Separator]))
          (map_to_list (nodes fs)).

(** The directories [os.MkdirAll(p)] has to find or make, outermost
    first: [p] cut after each of its elements. *)
Fixpoint ancestors_from (base : str) (rest : str) : list str :=
  match rest with
  | [] => match base with [] => [] | _ => [base] end
  | c :: rest' =>
      if filepath.IsPathSeparator c then
        match base with
        | [] => ancestors_from (base ++ [c]) rest'
        | _ => base :: ancestors_from (base ++ [c]) rest'
        end
      else ancestors_from (base ++ [c]) rest'
  end.

Fixpoint mkdirs (dirs : list str) (fs : FS) : option error * FS :=
  match dirs with
  | [] => (None, fs)
  | d :: rest =>
      match node_at fs d with
      | Some Dir => mkdirs rest fs
      | Some (Reg _ _) => (Some (PathError $"mkdir" d syscall.ENOTDIR), fs)
      | None => mkdirs rest (mkFS (<[d := Dir]> (nodes fs)) (opened fs))
      end
  end.

Definition mkdir_all (p : str) (fs : FS) : option error * FS :=
  mkdirs (ancestors_from [] p) fs.

Definition open_fd (p : str) (fs : FS) : File * FS :=
  (length (opened fs), mkFS (nodes fs) (opened fs ++ [p])).

Definition create (p : str) (fs : FS) : result File * FS :=
  match node_at fs (filepath.Dir p) with
  | None => (Err (PathError $"open" p syscall.ENOENT), fs)
  | Some (Reg _ _) => (Err (PathError $"open" p syscall.ENOTDIR), fs)
  | Some Dir =>
      match node_at fs p with
      | Some Dir => (Err (PathError $"open" p syscall.EISDIR), fs)
      | _ =>
          let '(f, fs1) := open_fd p (mkFS (<[p := Reg [] None]> (nodes fs)) (opened fs)) in
          (Ok f, fs1)
      end
  end.

Definition open (p : str) (fs : FS) : result File * FS :=
  match node_at fs p with
  | None => (Err (PathError $"open" p syscall.ENOENT), fs)
  | Some _ => let '(f, fs1) := open_fd p fs in (Ok f, fs1)
  end.

Definition remove (p : str) (fs : FS) : option error * FS :=
  match node_at fs p with
  | None => (Some (PathError $"remove" p syscall.ENOENT), fs)
  | Some (Reg _ _) => (None, mkFS (delete p (nodes fs)) (opened fs))
  | Some Dir =>
      if has_child fs p then (Some (PathError $"remove" p syscall.ENOTEMPTY), fs)
      else if str_eqb p [filepath.Separator] then
        (Some (PathError $"remove" p syscall.EACCES), fs)
      else (None, mkFS (delete p (nodes fs)) (opened fs))
  end.

(** The body streamed into a freshly truncated file. *)
Definition copy_to (f : File) (src : str) (fs : FS) : option error * FS :=
  match opened fs !! f with
  | None => (Some (PathError $"write" [] syscall.EBADF), fs)
  | Some p =>
      match nodes fs !! p with
      | Some (Reg _ fault) => (None, mkFS (<[p := Reg src fault]> (nodes fs)) (opened fs))
      | _ => (Some (PathError $"write" p syscall.EBADF), fs)
      end
  end.

(** The file read to its end, or to the fault. *)
Definition copy_from (f : File) (fs : FS) : str * option error :=
  match opened fs !! f with
  | None => ([], Some (PathError $"read" [] syscall.EBADF))
  | Some p =>
      match node_at fs p with
      | Some (Reg data None) => (data, None)
      | Some (Reg data (Some n)) =>
          if bool_decide (n < length data)
          then (take n data, Some (PathError $"read" p syscall.EIO))
          else (data, None)
      | Some Dir => ([], Some (PathError $"read" p syscall.EISDIR))
      | None => ([], Some (PathError $"read" p syscall.EBADF))
      end
  end.

(** Run a program: the result, the file system it leaves, and the calls it
    made with their answers. *)
Fixpoint run {A : Type} (p : prog A) (fs : FS) : A * FS * list event :=
  match p with
  | Ret a => (a, fs, [])
  | Log format args k =>
      let '(a, fs', t) := run k fs in (a, fs', EvLog format args :: t)
  | MkdirAll path perm k =>
      let '(err, fs1) := mkdir_all path fs in
      let '(a, fs', t) := run (k err) fs1 in (a, fs', EvMkdirAll path perm err :: t)
  | Create path k =>
      let '(res, fs1) := create path fs in
      let '(a, fs', t) := run (k res) fs1 in (a, fs', EvCreate path res :: t)
  | Open path k =>
      let '(res, fs1) := open path fs in
      let '(a, fs', t) := run (k res) fs1 in (a, fs', EvOpen path res :: t)
  | Remove path k =>
      let '(err, fs1) := remove path fs in
      let '(a, fs', t) := run (k err) fs1 in (a, fs', EvRemove path err :: t)
  | CopyTo f src k =>
      let '(err, fs1) := copy_to f src fs in
      let '(a, fs', t) := run (k err) fs1 in (a, fs', EvCopyTo f src err :: t)
  | CopyFrom f k =>
      let res := copy_from f fs in
      let '(a, fs', t) := run (k res) fs in (a, fs', EvCopyFrom f res :: t)
  | Close f k =>
      let '(a, fs', t) := run k fs in (a, fs', EvClose f :: t)
  end.

End memfs.

(** ** Paths as lists of elements

    The reading of a path that the claims speak about: its elements (the
    non-empty pieces between separators), and lexical normalization as a
    stack machine over them.  [Clean_by_elements] is compared with the
    byte-level [filepath.Clean] in [Clean_refines]. *)

(** [elements_from cur s]: the elements of [cur ++ s], where [cur] is the
    element read so far. *)
Fixpoint elements_from (cur s : str) : list str :=
  match s with
  | [] => match cur with [] => [] | _ => [cur] end
  | c :: s' =>
      if filepath.IsPathSeparator c then
        match cur with
        | [] => elements_from [] s'
        | _ => cur :: elements_from [] s'
        end
      else elements_from (cur ++ [c]) s'
  end.

Definition elements (s : str) : list str := elements_from [] s.

Definition dot : str := ["."].
Definition dotdot : str := ["."; "."].

(** The state of normalization: how many leading [..] elements the result
    has, and the names after them, innermost first. *)
Definition cstate : Type := nat * list str.

Definition cstep (rooted : bool) (st : cstate) (e : str) : cstate :=
  if str_eqb e dot then st
  else if str_eqb e dotdot then
    match st.2 with
    | _ :: names => (st.1, names)
    | [] => if rooted then st else (S st.1, [])
    end
  else (st.1, e :: st.2).

Definition render (rooted : bool) (st : cstate) : str :=
  (if rooted then [filepath.Separator] else [])
  ++ strings.Join (replicate st.1 dotdot ++ reverse st.2) [filepath.Separator].

Definition Clean_by_elements (path : str) : str :=
  let rooted := filepath.IsAbs path in
  match render rooted (foldl (cstep rooted) (0, []) (elements path)) with
  | [] => dot
  | out => out
  end.

(** A path is normalized when cleaning leaves it as it is. *)
Definition normalized (p : str) : Prop := filepath.Clean p = p.

(** [target] lies in the directory tree of [root]: the elements of [root]
    are the first elements of [target]. *)
Definition inside (root target : str) : Prop :=
  (elements root) `prefix_of` (elements target).

(** The acceptance test of [sanitizePath], line 37, negated. *)
Definition accepted (absRoot absTarget : str) : bool :=
  strings.HasPrefix absTarget (absRoot ++ [os.PathSeparator])
  || str_eqb absTarget absRoot.

(** A name: a non-empty element other than [.] and [..]. *)
Definition is_name (e : str) : Prop :=
  e ≠ [] ∧ (filepath.Separator ∉ e) ∧ e ≠ dot ∧ e ≠ dotdot.

(** Every element is non-empty and free of separators. *)
Definition is_elem (e : str) : Prop := e ≠ [] ∧ (filepath.Separator ∉ e).

(** [cur :: l], unless [cur] is empty. *)
Definition emit (cur : str) (l : list str) : list str :=
  match cur with [] => l | _ => cur :: l end.

(** The value of [dotdot] in the loop of [Clean] for a normalization state:
    the length of the output up to and including its leading [..] elements. *)
Definition dd (rooted : bool) (st : cstate) : nat := length (render rooted (st.1, [])).

(** The shape of the normalization states that occur. *)
Definition cinv (rooted : bool) (st : cstate) : Prop :=
  (rooted = true → st.1 = 0) ∧ Forall is_elem st.2.

(** The state reached from the empty output on the elements of a path. *)
Definition cfinal (rooted : bool) (es : list str) : cstate :=
  foldl (cstep rooted) (0, []) es.

(** The normalization states that occur hold names only. *)
Definition cnames (rooted : bool) (st : cstate) : Prop :=
  (rooted = true → st.1 = 0) ∧ Forall is_name st.2.

(** [os.Getwd] answers with an absolute path whenever it answers. *)
Definition wd_absolute (env : Env) : Prop :=
  match Getwd env with
  | Ok wd => filepath.IsAbs wd = true
  | Err _ => True
  end.

(** A deployment used in the examples: storage root [/data], working
    directory [/srv]. *)
Definition env_data : Env := mkEnv $"/data" (Ok $"/srv").

(** The predicates on elements are decidable, so they can be checked by
    evaluation on concrete strings. *)
#[global] Instance is_elem_dec e : Decision (is_elem e).
Proof. unfold is_elem. apply _. Defined.

#[global] Instance is_name_dec e : Decision (is_name e).
Proof. unfold is_name. apply _. Defined.

#[global] Instance inside_dec root target : Decision (inside root target).
Proof. unfold inside. apply _. Defined.

#[global] Instance normalized_dec p : Decision (normalized p).
Proof. unfold normalized. apply _. Defined.

(** The file-system calls of a trace. *)
Definition fs_calls (t : list event) : list event := filter (λ e, is_fs_call e = true) t.

(** The value of the [Content-Disposition] header for a key. *)
Definition attachment (key : str) : str :=
  $"attachment; filename=" ++ [dquote] ++ filepath.Base key ++ [dquote].

(** A file system holding the object [/data/b/k] with the bytes [abc] on a
    device that fails after the first byte. *)
Definition fs_faulty : memfs.FS :=
  memfs.mkFS
    (<[ $"/data/b/k" := memfs.Reg $"abc" (Some 1) ]>
       (<[ $"/data/b" := memfs.Dir ]> (<[ $"/data" := memfs.Dir ]> ∅)))
    [].

(** The same object on a sound device. *)
Definition fs_sound : memfs.FS :=
  memfs.mkFS
    (<[ $"/data/b/k" := memfs.Reg $"abc" None ]>
       (<[ $"/data/b" := memfs.Dir ]> (<[ $"/data" := memfs.Dir ]> ∅)))
    [].

(** The tables of the tests of package [path/filepath] ([cleantests],
    [basetests], [dirtests], [jointests]), Unix rows: input and expected
    output. *)
Definition cleantests : list (string * string) :=
  [("abc"%string, "abc"%string); ("abc/def"%string, "abc/def"%string);
   ("a/b/c"%string, "a/b/c"%string); ("."%string, "."%string);
   (".."%string, ".."%string); ("../.."%string, "../.."%string);
   ("../../abc"%string, "../../abc"%string); ("/abc"%string, "/abc"%string);
   ("/"%string, "/"%string); (EmptyString, "."%string); ("abc/"%string, "abc"%string);
   ("abc/def/"%string, "abc/def"%string); ("a/b/c/"%string, "a/b/c"%string);
   ("./"%string, "."%string); ("../"%string, ".."%string);
   ("../../"%string, "../.."%string); ("/abc/"%string, "/abc"%string);
   ("abc//def//ghi"%string, "abc/def/ghi"%string); ("abc//"%string, "abc"%string);
   ("abc/./def"%string, "abc/def"%string); ("/./abc/def"%string, "/abc/def"%string);
   ("abc/."%string, "abc"%string); ("abc/def/ghi/../jkl"%string, "abc/def/jkl"%string);
   ("abc/def/../ghi/../jkl"%string, "abc/jkl"%string);
   ("abc/def/.."%string, "abc"%string); ("abc/def/../.."%string, "."%string);
   ("/abc/def/../.."%string, "/"%string); ("abc/def/../../.."%string, ".."%string);
   ("/abc/def/../../.."%string, "/"%string);
   ("abc/def/../../../ghi/jkl/../../../mno"%string, "../../mno"%string);
   ("/../abc"%string, "/abc"%string); ("abc/./../def"%string, "def"%string);
   ("abc//./../def"%string, "def"%string);
   ("abc/../../././../def"%string, "../../def"%string)].

Definition basetests : list (string * string) :=
  [(EmptyString, "."%string); ("."%string, "."%string); ("/."%string, "."%string);
   ("/"%string, "/"%string); ("////"%string, "/"%string); ("x/"%string, "x"%string);
   ("abc"%string, "abc"%string); ("abc/def"%string, "def"%string);
   ("a/b/.x"%string, ".x"%string); ("a/b/c."%string, "c."%string);
   ("a/b/c.x"%string, "c.x"%string)].

Definition dirtests : list (string * string) :=
  [(EmptyString, "."%string); ("."%string, "."%string); ("/."%string, "/"%string);
   ("/"%string, "/"%string); ("/foo"%string, "/"%string); ("x/"%string, "x"%string);
   ("abc"%string, "."%string); ("abc/def"%string, "abc"%string);
   ("a/b/.x"%string, "a/b"%string); ("a/b/c."%string, "a/b"%string);
   ("a/b/c.x"%string, "a/b"%string)].

Definition jointests : list (list string * string) :=
  [([], EmptyString); ([EmptyString], EmptyString); (["/"%string], "/"%string);
   (["a"%string], "a"%string); (["a"%string; "b"%string], "a/b"%string);
   (["a"%string; EmptyString], "a"%string); ([EmptyString; "b"%string], "b"%string);
   (["/"%string; "a"%string], "/a"%string);
   (["/"%string; "a/b"%string], "/a/b"%string); (["/"%string; EmptyString], "/"%string);
   (["/a"%string; "b"%string], "/a/b"%string);
   (["a"%string; "/b"%string], "a/b"%string);
   (["/a"%string; "/b"%string], "/a/b"%string);
   (["a/"%string; "b"%string], "a/b"%string); (["a/"%string; EmptyString], "a"%string);
   ([EmptyString; EmptyString], EmptyString); (["//"%string; "a"%string], "/a"%string)].

(** [f] maps every input of the table to its expected output. *)
Definition passes (f : str -> str) (table : list (string * string)) : bool :=
  forallb (fun '(input, want) => str_eqb (f $input) $want) table.

(** The methods the server implements. *)
Definition implemented (m : str) : Prop :=
  m = http.MethodPut ∨ m = http.MethodGet ∨ m = http.MethodDelete.

(** The status codes the server answers with. *)
Definition statuses : list nat := [200; 204; 400; 404; 405; 500].

(** The paths of the file-system calls stay under the root: what is created,
    opened or removed passed the test of [sanitizePath] against [absRoot],
    and the directory that is made is the parent of such a path. *)
Definition confined (absRoot : str) (e : event) : Prop :=
  match e with
  | EvCreate p _ | EvOpen p _ | EvRemove p _ =>
      accepted absRoot p = true ∧ inside absRoot p
  | EvMkdirAll p _ _ =>
      ∃ q, accepted absRoot q = true ∧ inside absRoot q ∧ p = filepath.Dir q
  | _ => True
  end.

(** The calls that leave the stored objects as they are. *)
Definition read_only (e : event) : Prop :=
  match e with
  | EvLog _ _ | EvOpen _ _ | EvCopyFrom _ _ | EvClose _ => True
  | _ => False
  end.

(* ===================================================================== *)
(** * Properties *)

(** ** Strings *)

Lemma HasPrefix_spec s pre : strings.HasPrefix s pre = true ↔ pre `prefix_of` s.
Proof.
  revert s; induction pre as [|p pre IH]; intros s; simpl.
  - split; [intros _; apply prefix_nil | done].
  - destruct s as [|c s].
    + split; [done | intros H; by apply prefix_nil_not in H].
    + rewrite andb_true_iff, bool_decide_eq_true, IH. split.
      * intros [-> H]. by apply prefix_cons.
      * intros H. split; [symmetry; by eapply prefix_cons_inv_1 | by eapply prefix_cons_inv_2].
Qed.

Lemma str_eqb_eq a b : str_eqb a b = true ↔ a = b.
Proof. unfold str_eqb. by rewrite bool_decide_eq_true. Qed.

Lemma str_eqb_refl a : str_eqb a a = true.
Proof. by apply str_eqb_eq. Qed.

Lemma Join_app_sep (A B : list str) sep :
  A ≠ [] → B ≠ [] →
  strings.Join (A ++ B) sep = strings.Join A sep ++ sep ++ strings.Join B sep.
Proof.
  intros HA HB. induction A as [|a A IH]; [done|].
  destruct A as [|a' A].
  - simpl. by destruct B.
  - change (strings.Join ((a :: a' :: A) ++ B) sep)
      with (a ++ sep ++ strings.Join ((a' :: A) ++ B) sep).
    rewrite IH by done. simpl. by rewrite <- !app_assoc.
Qed.

Lemma Join_snoc (L : list str) e sep :
  strings.Join (L ++ [e]) sep =
    match L with [] => e | _ => strings.Join L sep ++ sep ++ e end.
Proof.
  destruct L as [|a L]; [done|]. by rewrite Join_app_sep.
Qed.

Lemma Join_nil_inv (L : list str) sep :
  Forall (λ e, e ≠ []) L → strings.Join L sep = [] → L = [].
Proof.
  intros HL. destruct L as [|a L]; [done|].
  apply Forall_cons in HL as [Ha _]. destruct L; simpl.
  - done.
  - intros H. by apply app_eq_nil in H as [? _].
Qed.

(** ** Elements of a path *)

Lemma IsPathSeparator_true c : filepath.IsPathSeparator c = true ↔ c = filepath.Separator.
Proof. unfold filepath.IsPathSeparator. by rewrite bool_decide_eq_true. Qed.

Lemma IsPathSeparator_false c : filepath.IsPathSeparator c = false ↔ c ≠ filepath.Separator.
Proof. unfold filepath.IsPathSeparator. by rewrite bool_decide_eq_false. Qed.

Lemma elem_of_path_no_sep s : filepath.Separator ∉ filepath.elem_of_path s.
Proof.
  induction s as [|c s IH]; simpl; [by apply not_elem_of_nil|].
  destruct (filepath.IsPathSeparator c) eqn:Hc; [by apply not_elem_of_nil|].
  apply IsPathSeparator_false in Hc. apply not_elem_of_cons. split; [done|apply IH].
Qed.

Lemma after_elem_length s : length (filepath.after_elem s) ≤ length s.
Proof.
  induction s as [|c s IH]; simpl; [done|].
  destruct (filepath.IsPathSeparator c); simpl; lia.
Qed.

Lemma elem_of_path_id s : filepath.Separator ∉ s → filepath.elem_of_path s = s.
Proof.
  induction s as [|c s IH]; simpl; [done|]. intros [Hc Hs]%not_elem_of_cons.
  apply not_eq_sym, IsPathSeparator_false in Hc. by rewrite Hc, IH.
Qed.

Lemma elem_of_path_app_sep s t :
  filepath.Separator ∉ s →
  filepath.elem_of_path (s ++ filepath.Separator :: t) = s.
Proof.
  induction s as [|c s IH]; simpl; [done|]. intros [Hc Hs]%not_elem_of_cons.
  apply not_eq_sym, IsPathSeparator_false in Hc. by rewrite Hc, IH.
Qed.

Lemma end_or_sep_elem s :
  filepath.end_or_sep s = true ↔ filepath.elem_of_path s = [].
Proof.
  destruct s as [|c s]; simpl; [done|].
  by destruct (filepath.IsPathSeparator c).
Qed.

Lemma end_or_sep_after s :
  filepath.end_or_sep s = true → filepath.after_elem s = s.
Proof.
  destruct s as [|c s]; simpl; [done|]. by intros ->.
Qed.

(** The elements of [cur ++ s]: the element that [cur] starts, then the
    elements after it. *)
Lemma elements_from_unfold cur s :
  elements_from cur s =
    emit (cur ++ filepath.elem_of_path s) (elements (filepath.after_elem s)).
Proof.
  revert cur; induction s as [|c s IH]; intros cur; simpl.
  - by rewrite app_nil_r.
  - destruct (filepath.IsPathSeparator c) eqn:Hc.
    + rewrite app_nil_r. unfold elements. simpl. rewrite Hc. by destruct cur.
    + rewrite IH. by rewrite <- app_assoc.
Qed.

Lemma elements_cons_sep s : elements (filepath.Separator :: s) = elements s.
Proof. done. Qed.

Lemma elements_cons c s :
  c ≠ filepath.Separator →
  elements (c :: s) =
    (c :: filepath.elem_of_path s) :: elements (filepath.after_elem s).
Proof.
  intros Hc%IsPathSeparator_false. unfold elements at 1. simpl. rewrite Hc.
  by rewrite elements_from_unfold.
Qed.

Lemma elements_from_app_sep cur s t :
  elements_from cur (s ++ filepath.Separator :: t) =
    elements_from cur s ++ elements t.
Proof.
  revert cur; induction s as [|c s IH]; intros cur; simpl.
  - by destruct cur.
  - destruct (filepath.IsPathSeparator c); [|by apply IH].
    destruct cur; by rewrite IH.
Qed.

Lemma elements_app_sep s t :
  elements (s ++ filepath.Separator :: t) = elements s ++ elements t.
Proof. apply elements_from_app_sep. Qed.

Lemma elements_from_are_elems cur s :
  filepath.Separator ∉ cur → Forall is_elem (elements_from cur s).
Proof.
  revert cur; induction s as [|c s IH]; intros cur Hcur; simpl.
  - destruct cur; [constructor|]. by repeat constructor.
  - destruct (filepath.IsPathSeparator c) eqn:Hc.
    + destruct cur.
      * apply IH, not_elem_of_nil.
      * constructor; [done|]. apply IH, not_elem_of_nil.
    + apply IH. apply IsPathSeparator_false in Hc.
      rewrite elem_of_app, list_elem_of_singleton. by intros [?|?].
Qed.

Lemma elements_are_elems s : Forall is_elem (elements s).
Proof. apply elements_from_are_elems, not_elem_of_nil. Qed.

Lemma after_elem_no_sep s : filepath.Separator ∉ s → filepath.after_elem s = [].
Proof.
  induction s as [|c s IH]; simpl; [done|]. intros [Hc Hs]%not_elem_of_cons.
  apply not_eq_sym, IsPathSeparator_false in Hc. by rewrite Hc, IH.
Qed.

Lemma elements_elem e : is_elem e → elements e = [e].
Proof.
  intros [Hne Hsep]. destruct e as [|c e]; [done|].
  apply not_elem_of_cons in Hsep as [Hc He].
  rewrite elements_cons by done.
  by rewrite elem_of_path_id, after_elem_no_sep.
Qed.

(** ** [filepath.Clean] refines normalization by elements *)

Lemma dotdot_is_elem : is_elem dotdot.
Proof.
  split; [done|]. unfold dotdot. rewrite !not_elem_of_cons. repeat split; try done.
  apply not_elem_of_nil.
Qed.

Lemma stack_elems st :
  Forall is_elem st.2 → Forall (λ e, e ≠ []) (replicate st.1 dotdot ++ reverse st.2).
Proof.
  intros H. apply Forall_app. split.
  - apply Forall_forall. intros e He. by apply elem_of_replicate_inv in He as ->.
  - apply Forall_reverse. eapply Forall_impl; [done|]. by intros e [? _].
Qed.

(** Pushing an element onto the rendered state. *)
Lemma render_push rooted ups names e :
  render rooted (ups, e :: names) =
    render rooted (ups, names)
    ++ (match replicate ups dotdot ++ reverse names with [] => [] | _ => [filepath.Separator] end)
    ++ e.
Proof.
  unfold render. simpl. rewrite reverse_cons, app_assoc, Join_snoc.
  destruct (replicate ups dotdot ++ reverse names); simpl.
  - by rewrite app_nil_r.
  - by rewrite <- !app_assoc.
Qed.

Lemma render_ups rooted ups :
  render rooted (S ups, []) =
    render rooted (ups, [])
    ++ (match ups with 0 => [] | _ => [filepath.Separator] end) ++ dotdot.
Proof.
  unfold render. simpl fst. simpl snd. rewrite !app_nil_r, replicate_S_end, Join_snoc.
  destruct ups; simpl.
  - by rewrite app_nil_r.
  - by rewrite <- !app_assoc.
Qed.

Lemma dd_le_render rooted st : dd rooted st ≤ length (render rooted st).
Proof.
  destruct st as [ups names]. unfold dd. simpl fst.
  induction names as [|e names IH]; [done|].
  rewrite render_push, !length_app. lia.
Qed.

(** *** Backtracking over the last element *)

Lemma nth_not_sep (e : str) i :
  filepath.Separator ∉ e → i < length e →
  filepath.IsPathSeparator (nth i e filepath.Separator) = false.
Proof.
  intros He Hi. apply IsPathSeparator_false. intros Heq. apply He.
  rewrite <- Heq. apply list_elem_of_In, nth_In. lia.
Qed.

(** The loop stops at the separator before the last element [e], or at
    [dotdot] when [e] is the first thing after it. *)
Lemma rewind_elem (P x e : str) (ddv j : nat) :
  filepath.Separator ∉ e →
  (x = [] ∧ length P = ddv) ∨ (x = [filepath.Separator] ∧ ddv ≤ length P) →
  j < length e →
  filepath.rewind (P ++ x ++ e) ddv (length P + length x + j) = length P.
Proof.
  intros He Hx. induction j as [|j IH]; intros Hj.
  - destruct Hx as [[-> <-]|[-> Hdd]]; simpl length; rewrite !Nat.add_0_r.
    + destruct (length P) as [|n] eqn:Hn; simpl; [done|].
      by rewrite bool_decide_eq_false_2 by lia.
    + rewrite Nat.add_1_r. simpl.
      rewrite bool_decide_eq_true_2 by lia. simpl.
      rewrite app_nth2 by lia. replace (S (length P) - length P) with 1 by lia.
      simpl. destruct e as [|c e]; [simpl in Hj; lia|]. simpl.
      apply not_elem_of_cons in He as [Hc _].
      apply not_eq_sym, IsPathSeparator_false in Hc. rewrite Hc. simpl.
      destruct (length P) as [|n] eqn:Hn; simpl; [done|].
      rewrite app_nth2 by lia. replace (S n - length P) with 0 by lia. simpl.
      by rewrite andb_false_r.
  - replace (length P + length x + S j) with (S (length P + length x + j)) by lia.
    simpl. rewrite bool_decide_eq_true_2
      by (destruct Hx as [[-> <-]|[-> Hdd]]; simpl; lia).
    rewrite app_assoc, app_nth2 by (rewrite length_app; lia).
    rewrite length_app.
    replace (S (length P + length x + j) - (length P + length x)) with (S j) by lia.
    rewrite nth_not_sep by done. simpl. rewrite <- app_assoc. apply IH. lia.
Qed.

Lemma backtrack_elem (P x e : str) (ddv : nat) :
  e ≠ [] → filepath.Separator ∉ e →
  (x = [] ∧ length P = ddv) ∨ (x = [filepath.Separator] ∧ ddv ≤ length P) →
  filepath.backtrack (P ++ x ++ e) ddv = P.
Proof.
  intros Hne He Hx. unfold filepath.backtrack.
  destruct e as [|c e]; [done|].
  replace (length (P ++ x ++ c :: e) - 1) with (length P + length x + length e)
    by (rewrite !length_app; simpl; lia).
  rewrite rewind_elem by (done || simpl; lia).
  by rewrite take_app_length.
Qed.

Lemma backtrack_render rooted ups names e :
  cinv rooted (ups, e :: names) →
  filepath.backtrack (render rooted (ups, e :: names)) (dd rooted (ups, names))
  = render rooted (ups, names).
Proof.
  intros [Hr [[Hne He] Hnames]%Forall_cons]. simpl in *.
  rewrite render_push. apply backtrack_elem; [done..|].
  destruct (replicate ups dotdot ++ reverse names) as [|a L] eqn:HL.
  - left. split; [done|]. apply app_eq_nil in HL as [Hups Hn].
    assert (names = []) as ->.
    { apply (f_equal reverse) in Hn. by rewrite reverse_involutive in Hn. }
    done.
  - right. split; [done|]. apply (dd_le_render rooted (ups, names)).
Qed.

(** *** The loop of [Clean] against the stack machine *)

(** The inner loop copies the rest of the current element. *)
Lemma clean_loop_copy rooted rest out ddv :
  filepath.clean_loop rooted true rest out ddv =
  filepath.clean_loop rooted false (filepath.after_elem rest)
    (out ++ filepath.elem_of_path rest) ddv.
Proof.
  revert out; induction rest as [|c rest IH]; intros out; simpl.
  - by rewrite app_nil_r.
  - destruct (filepath.IsPathSeparator c) eqn:Hc; simpl.
    + by rewrite Hc, app_nil_r.
    + rewrite IH. by rewrite <- app_assoc.
Qed.

Lemma cstep_dot rooted st : cstep rooted st dot = st.
Proof. done. Qed.

Lemma cstep_dotdot rooted ups names :
  cstep rooted (ups, names) dotdot =
    match names with
    | _ :: names' => (ups, names')
    | [] => if rooted then (ups, []) else (S ups, [])
    end.
Proof. by destruct names. Qed.

Lemma cstep_name rooted st e :
  e ≠ dot → e ≠ dotdot → cstep rooted st e = (st.1, e :: st.2).
Proof.
  intros H1 H2. unfold cstep, str_eqb.
  by rewrite !bool_decide_eq_false_2.
Qed.

Lemma render_nil_length rooted ups names :
  Forall is_elem names →
  length (render rooted (ups, names)) = (if rooted then 1 else 0)
  ↔ replicate ups dotdot ++ reverse names = [].
Proof.
  intros Hn. unfold render. simpl fst; simpl snd. split.
  - intros Hlen. apply (Join_nil_inv _ [filepath.Separator]).
    + by apply (stack_elems (ups, names)).
    + apply length_zero_iff_nil. rewrite length_app in Hlen. destruct rooted; simpl in *; lia.
  - intros ->. simpl. by destruct rooted.
Qed.

(** A real path element is appended to the output, after a separator when
    the output already holds an element. *)
Lemma clean_loop_real rooted st c rest1 :
  cinv rooted st → c ≠ filepath.Separator →
  let out := render rooted st in
  let out1 :=
    if (rooted && negb (bool_decide (length out = 1)))
       || (negb rooted && negb (bool_decide (length out = 0)))
    then out ++ [filepath.Separator] else out in
  (out1 ++ [c]) ++ filepath.elem_of_path rest1
  = render rooted (st.1, (c :: filepath.elem_of_path rest1) :: st.2).
Proof.
  intros [Hr Hn] Hc out out1. destruct st as [ups names]. simpl in *.
  rewrite render_push. fold out. rewrite <- app_assoc. simpl.
  pose proof (render_nil_length rooted ups names Hn) as Hlen. fold out in Hlen.
  subst out1.
  destruct (replicate ups dotdot ++ reverse names) as [|a L] eqn:HL.
  - destruct rooted; simpl in *.
    + rewrite bool_decide_eq_true_2 by (by apply Hlen). done.
    + rewrite bool_decide_eq_true_2 by (by apply Hlen). done.
  - destruct rooted; simpl in *.
    + rewrite bool_decide_eq_false_2 by (intros H%Hlen; done). simpl.
      by rewrite <- app_assoc.
    + rewrite bool_decide_eq_false_2 by (intros H%Hlen; done). simpl.
      by rewrite <- app_assoc.
Qed.

Lemma is_dot_true c : filepath.is_dot c = true ↔ c = ".".
Proof. unfold filepath.is_dot. by rewrite bool_decide_eq_true. Qed.

Lemma is_dot_false c : filepath.is_dot c = false ↔ c ≠ ".".
Proof. unfold filepath.is_dot. by rewrite bool_decide_eq_false. Qed.

Lemma clean_loop_elements rooted n :
  ∀ rest st, length rest ≤ n → cinv rooted st →
    filepath.clean_loop rooted false rest (render rooted st) (dd rooted st)
    = render rooted (foldl (cstep rooted) st (elements rest)).
Proof.
  induction n as [|n IHn]; intros rest st Hlen Hinv.
  { destruct rest; [done|simpl in Hlen; lia]. }
  destruct rest as [|c rest1]; [done|]. simpl in Hlen.
  destruct (filepath.IsPathSeparator c) eqn:Hc.
  { pose proof Hc as ->%IsPathSeparator_true. rewrite elements_cons_sep.
    simpl. apply IHn; [lia|done]. }
  pose proof Hc as Hc'%IsPathSeparator_false.
  rewrite elements_cons by done. simpl foldl.
  assert (Hreal : c :: filepath.elem_of_path rest1 ≠ dot →
                  c :: filepath.elem_of_path rest1 ≠ dotdot →
    filepath.clean_loop rooted true rest1
      ((if (rooted && negb (bool_decide (length (render rooted st) = 1)))
           || (negb rooted && negb (bool_decide (length (render rooted st) = 0)))
        then render rooted st ++ [filepath.Separator] else render rooted st) ++ [c])
      (dd rooted st)
    = render rooted (foldl (cstep rooted) (cstep rooted st (c :: filepath.elem_of_path rest1))
                       (elements (filepath.after_elem rest1)))).
  { intros Hd Hdd. rewrite clean_loop_copy, cstep_name by done.
    rewrite (clean_loop_real rooted st c rest1) by done.
    apply (IHn _ (st.1, _ :: st.2)).
    - pose proof (after_elem_length rest1). lia.
    - destruct Hinv as [Hr Hn]. split; [done|]. constructor; [|done].
      split; [done|]. apply not_elem_of_cons. split; [done|apply elem_of_path_no_sep]. }
  simpl filepath.clean_loop. rewrite Hc. simpl.
  destruct (filepath.is_dot c) eqn:Hdot; simpl.
  2:{ apply is_dot_false in Hdot. unfold dot, dotdot in Hreal.
      destruct rest1; apply Hreal; congruence. }
  apply is_dot_true in Hdot as ->.
  destruct (filepath.end_or_sep rest1) eqn:Hend.
  { (* . element *)
    pose proof Hend as ->%end_or_sep_elem. rewrite end_or_sep_after by done.
    rewrite cstep_dot. apply IHn; [lia|done]. }
  destruct rest1 as [|c1 rest2]; [done|]. simpl in Hend.
  destruct (filepath.is_dot c1) eqn:Hdot1; simpl.
  2:{ apply Hreal; simpl; rewrite Hend; [done|].
      apply is_dot_false in Hdot1. by intros [= ->]. }
  apply is_dot_true in Hdot1 as ->.
  destruct (filepath.end_or_sep rest2) eqn:Hend2.
  2:{ apply Hreal; simpl; [done|].
      intros [= Hnil]. apply end_or_sep_elem in Hnil. congruence. }
  (* .. element *)
  simpl filepath.elem_of_path. simpl filepath.after_elem.
  pose proof Hend2 as ->%end_or_sep_elem. rewrite end_or_sep_after by done.
  simpl in Hlen. destruct st as [ups names]. destruct Hinv as [Hr Hn]. simpl in Hr, Hn.
  rewrite !Hc.
  rewrite (cstep_dotdot rooted ups names : cstep rooted (ups, names) ["."; "."] = _). simpl.
  destruct names as [|e names].
  - rewrite bool_decide_eq_false_2 by (unfold dd; simpl; lia).
    destruct rooted; simpl.
    + apply (IHn _ (ups, [])); [lia|done].
    + assert (render false (S ups, []) =
              (if bool_decide (0 < length (render false (ups, [])))
               then render false (ups, []) ++ [filepath.Separator]
               else render false (ups, [])) ++ dotdot) as Heq.
      { rewrite render_ups. destruct ups as [|ups].
        - done.
        - rewrite bool_decide_eq_true_2; [by rewrite <- app_assoc|].
          rewrite render_ups, !length_app. simpl. lia. }
      unfold dotdot in Heq. rewrite <- Heq.
      apply (IHn _ (S ups, [])); [lia|]. split; [done|constructor].
  - rewrite bool_decide_eq_true_2.
    + change (dd rooted (ups, e :: names)) with (dd rooted (ups, names)).
      rewrite (backtrack_render rooted ups names e) by done.
      apply (IHn _ (ups, names)); [lia|]. split; [done|].
      by apply Forall_cons in Hn as [_ ?].
    + unfold dd. simpl fst. rewrite render_push, !length_app.
      apply Forall_cons in Hn as [[He _] _]. destruct e; [done|].
      pose proof (dd_le_render rooted (ups, names)) as Hle. unfold dd in Hle.
      simpl in *. lia.
Qed.

Lemma IsAbs_cons c s : filepath.IsAbs (c :: s) = filepath.IsPathSeparator c.
Proof. unfold filepath.IsAbs. simpl. by rewrite andb_true_r. Qed.

Lemma cinv_init rooted : cinv rooted (0, []).
Proof. split; [done|constructor]. Qed.

(** [filepath.Clean] computes normalization by elements. *)
Lemma Clean_refines path : filepath.Clean path = Clean_by_elements path.
Proof.
  destruct path as [|c rest]; [done|].
  unfold filepath.Clean, Clean_by_elements. rewrite IsAbs_cons.
  destruct (filepath.IsPathSeparator c) eqn:Hc.
  - pose proof Hc as ->%IsPathSeparator_true. rewrite elements_cons_sep.
    pose proof (clean_loop_elements true (length rest) rest (0, [])
                  (le_n _) (cinv_init true)) as H.
    change (render true (0, [])) with [filepath.Separator] in H.
    change (dd true (0, [])) with 1 in H. rewrite H.
    by destruct (render true _).
  - pose proof (clean_loop_elements false (length (c :: rest)) (c :: rest) (0, [])
                  (le_n _) (cinv_init false)) as H.
    change (render false (0, [])) with (@nil ascii) in H at 1.
    change (dd false (0, [])) with 0 in H. rewrite H.
    by destruct (render false _).
Qed.

(** ** Normalization by elements *)

Lemma is_name_elem e : is_name e → is_elem e.
Proof. by intros (? & ? & _). Qed.

Lemma cstep_names rooted st e :
  cnames rooted st → is_elem e → cnames rooted (cstep rooted st e).
Proof.
  intros [Hr Hn] [He1 He2]. destruct st as [ups names]. unfold cstep, str_eqb. simpl in *.
  case_bool_decide as Hd; [done|].
  case_bool_decide as Hdd.
  - destruct names as [|a names].
    + destruct rooted; [done|]. split; [done|constructor].
    + by apply Forall_cons in Hn as [_ Hn].
  - split; [done|]. by constructor.
Qed.

Lemma foldl_cstep_names rooted st es :
  cnames rooted st → Forall is_elem es → cnames rooted (foldl (cstep rooted) st es).
Proof.
  intros Hst Hes. revert st Hst. induction Hes as [|e es He _ IH]; intros st Hst; simpl.
  - done.
  - by apply IH, cstep_names.
Qed.

Lemma cfinal_names rooted s : cnames rooted (cfinal rooted (elements s)).
Proof.
  apply foldl_cstep_names; [|apply elements_are_elems]. split; [done|constructor].
Qed.

(** Names are pushed. *)
Lemma foldl_cstep_push rooted ups names l :
  Forall is_name l →
  foldl (cstep rooted) (ups, names) l = (ups, reverse l ++ names).
Proof.
  intros Hl. revert names. induction Hl as [|e l (_ & _ & Hd & Hdd) _ IH]; intros names; simpl.
  - done.
  - rewrite cstep_name by done. simpl. rewrite IH, reverse_cons. by rewrite <- app_assoc.
Qed.

(** Leading [..] elements of a relative path are counted. *)
Lemma foldl_cstep_ups ups n :
  foldl (cstep false) (ups, []) (replicate n dotdot) = (n + ups, []).
Proof.
  revert ups. induction n as [|n IH]; intros ups; simpl; [done|].
  rewrite (cstep_dotdot false ups []). simpl. rewrite IH. f_equal. lia.
Qed.

Lemma elements_Join (L : list str) :
  Forall is_elem L → elements (strings.Join L [filepath.Separator]) = L.
Proof.
  induction 1 as [|e L He HL IH]; [done|].
  destruct L as [|e' L].
  - by apply elements_elem.
  - change (strings.Join (e :: e' :: L) [filepath.Separator])
      with (e ++ filepath.Separator :: strings.Join (e' :: L) [filepath.Separator]).
    by rewrite elements_app_sep, IH, elements_elem.
Qed.

Lemma stack_is_elems st :
  Forall is_elem st.2 → Forall is_elem (replicate st.1 dotdot ++ reverse st.2).
Proof.
  intros H. apply Forall_app. split.
  - apply Forall_forall. intros e He. apply elem_of_replicate_inv in He as ->.
    apply dotdot_is_elem.
  - by apply Forall_reverse.
Qed.

Lemma elements_render rooted st :
  Forall is_elem st.2 →
  elements (render rooted st) = replicate st.1 dotdot ++ reverse st.2.
Proof.
  intros H. unfold render. destruct rooted; simpl app.
  - rewrite elements_cons_sep. by apply elements_Join, stack_is_elems.
  - by apply elements_Join, stack_is_elems.
Qed.

(** Normalizing a rendered state gives the state back. *)
Lemma cfinal_render rooted st :
  cnames rooted st → cfinal rooted (elements (render rooted st)) = st.
Proof.
  intros [Hr Hn]. rewrite elements_render
    by (eapply Forall_impl; [done|apply is_name_elem]).
  destruct st as [ups names]. simpl in *. unfold cfinal. rewrite foldl_app.
  assert (foldl (cstep rooted) (0, []) (replicate ups dotdot) = (ups, [])) as ->.
  { destruct rooted.
    - by rewrite Hr.
    - rewrite foldl_cstep_ups. f_equal. lia. }
  rewrite foldl_cstep_push by (by apply Forall_reverse).
  by rewrite reverse_involutive, app_nil_r.
Qed.

Lemma IsAbs_render rooted st :
  Forall is_elem st.2 → render rooted st ≠ [] →
  filepath.IsAbs (render rooted st) = rooted.
Proof.
  intros Hn Hne. pose proof (stack_is_elems st Hn) as HL. unfold render in *.
  destruct rooted; [done|]. simpl in *.
  destruct (replicate st.1 dotdot ++ reverse st.2) as [|e L]; [done|].
  apply Forall_cons in HL as [[He1 He2] _]. destruct e as [|c e]; [done|].
  apply not_elem_of_cons in He2 as [Hc _].
  apply not_eq_sym, IsPathSeparator_false in Hc.
  destruct L; simpl; by rewrite IsAbs_cons.
Qed.

Lemma Clean_unfold path :
  filepath.Clean path =
    match render (filepath.IsAbs path) (cfinal (filepath.IsAbs path) (elements path)) with
    | [] => dot
    | out => out
    end.
Proof. apply Clean_refines. Qed.

Lemma Clean_nonempty path : filepath.Clean path ≠ [].
Proof. rewrite Clean_unfold. by destruct (render _ _). Qed.

(** Cleaning keeps a path absolute or relative. *)
Lemma IsAbs_Clean path : filepath.IsAbs (filepath.Clean path) = filepath.IsAbs path.
Proof.
  rewrite Clean_unfold.
  pose proof (cfinal_names (filepath.IsAbs path) path) as [Hr Hn].
  destruct (render _ _) as [|c out] eqn:Hout.
  - destruct (filepath.IsAbs path) eqn:Habs; [|done]. by unfold render in Hout.
  - rewrite <- Hout. apply IsAbs_render; [|by rewrite Hout].
    eapply Forall_impl; [done|apply is_name_elem].
Qed.

(** Cleaning is idempotent. *)
Lemma Clean_idem path : filepath.Clean (filepath.Clean path) = filepath.Clean path.
Proof.
  rewrite (Clean_unfold (filepath.Clean path)), IsAbs_Clean.
  rewrite (Clean_unfold path).
  pose proof (cfinal_names (filepath.IsAbs path) path) as Hn.
  destruct (render _ (cfinal _ (elements path))) as [|c out] eqn:Hout.
  - by destruct (filepath.IsAbs path) eqn:Habs; [unfold render in Hout|].
  - rewrite <- Hout, cfinal_render by done. by rewrite Hout.
Qed.

(** ** [filepath.Abs] and the acceptance test *)

(** From here on [Clean] is used through its properties. *)
Arguments filepath.Clean : simpl never.

Lemma Abs_normalized env p q : p ≠ [] → Abs env p = Ok q → normalized q.
Proof.
  unfold Abs, normalized. intros Hp.
  destruct (filepath.IsAbs p).
  - intros [= <-]. apply Clean_idem.
  - destruct (Getwd env) as [wd|]; [|done]. intros [= <-].
    destruct wd as [|c wd]; simpl.
    + destruct p; [done|]. apply Clean_idem.
    + apply Clean_idem.
Qed.

Lemma Abs_absolute env p q :
  wd_absolute env → Abs env p = Ok q → filepath.IsAbs q = true.
Proof.
  unfold Abs, wd_absolute. intros Hwd.
  destruct (filepath.IsAbs p) eqn:Hp.
  - intros [= <-]. by rewrite IsAbs_Clean.
  - destruct (Getwd env) as [wd|]; [|done]. intros [= <-].
    destruct wd as [|c wd]; [done|]. simpl.
    rewrite IsAbs_Clean. by rewrite IsAbs_cons in *.
Qed.

Lemma accepted_spec absRoot p :
  accepted absRoot p = true
  ↔ p = absRoot ∨ ∃ rest, p = absRoot ++ os.PathSeparator :: rest.
Proof.
  unfold accepted. rewrite orb_true_iff, HasPrefix_spec, str_eqb_eq. split.
  - intros [[rest ->] | ->]; [right|by left]. exists rest. by rewrite <- app_assoc.
  - intros [-> | [rest ->]]; [by right|left]. exists rest. by rewrite <- app_assoc.
Qed.

(** What the test accepts lies in the tree of the root. *)
Lemma accepted_inside absRoot p : accepted absRoot p = true → inside absRoot p.
Proof.
  intros [-> | [rest ->]]%accepted_spec; unfold inside.
  - done.
  - rewrite elements_app_sep. by apply prefix_app_r.
Qed.

Lemma sanitizePath_unfold env bucket key :
  sanitizePath env bucket key =
    match Abs env (storageRootDir env) with
    | Err err => Err err
    | Ok absRoot =>
        match Abs env (filepath.Clean (filepath.Join [storageRootDir env; bucket; key])) with
        | Err err => Err err
        | Ok absTarget =>
            if accepted absRoot absTarget then Ok absTarget else Err ErrPathTraversal
        end
    end.
Proof.
  unfold sanitizePath, accepted.
  destruct (Abs env (storageRootDir env)); [|done].
  destruct (Abs env _); [|done].
  by destruct (strings.HasPrefix _ _), (str_eqb _ _).
Qed.

Lemma sanitizePath_Ok_inv env bucket key p :
  sanitizePath env bucket key = Ok p →
  ∃ absRoot,
    Abs env (storageRootDir env) = Ok absRoot
    ∧ Abs env (filepath.Clean (filepath.Join [storageRootDir env; bucket; key])) = Ok p
    ∧ accepted absRoot p = true.
Proof.
  rewrite sanitizePath_unfold.
  destruct (Abs env (storageRootDir env)) as [absRoot|]; [|done].
  destruct (Abs env _) as [absTarget|]; [|done].
  destruct (accepted absRoot absTarget) eqn:Hacc; [|done].
  intros [= <-]. by exists absRoot.
Qed.

Lemma sanitizePath_normalized env bucket key p :
  sanitizePath env bucket key = Ok p → normalized p.
Proof.
  intros (absRoot & _ & Habs & _)%sanitizePath_Ok_inv.
  eapply Abs_normalized; [|done]. apply Clean_nonempty.
Qed.

(** ** [sanitizePath] *)

(** C1. Whenever [sanitizePath] returns a path, that path is the absolute
    form of the cleaned join of root, bucket and key; it is lexically
    normalized, it is absolute (given that [os.Getwd] answers with absolute
    paths), and it either equals the absolute root or starts with the
    absolute root followed by the path separator; so its elements extend
    those of the absolute root. *)
Theorem sanitizePath_returns_contained_target env bucket key p :
  sanitizePath env bucket key = Ok p →
  ∃ absRoot,
    Abs env (storageRootDir env) = Ok absRoot
    ∧ Abs env (filepath.Clean (filepath.Join [storageRootDir env; bucket; key])) = Ok p
    ∧ normalized p
    ∧ (wd_absolute env → filepath.IsAbs p = true)
    ∧ (p = absRoot ∨ ∃ rest, p = absRoot ++ os.PathSeparator :: rest)
    ∧ inside absRoot p.
Proof.
  intros Hok. pose proof (sanitizePath_normalized _ _ _ _ Hok) as Hnorm.
  apply sanitizePath_Ok_inv in Hok as (absRoot & Hroot & Htarget & Hacc).
  exists absRoot. split; [done|]. split; [done|]. split; [done|].
  split; [|split].
  - intros Hwd. by eapply Abs_absolute.
  - by apply accepted_spec.
  - by apply accepted_inside.
Qed.

Lemma sanitizePath_returns_contained_target_witness :
  ∃ absRoot,
    Abs env_data (storageRootDir env_data) = Ok absRoot
    ∧ Abs env_data
        (filepath.Clean (filepath.Join [storageRootDir env_data; $"b2"; $"x"]))
      = Ok $"/data/b2/x"
    ∧ normalized $"/data/b2/x"
    ∧ (wd_absolute env_data → filepath.IsAbs $"/data/b2/x" = true)
    ∧ ($"/data/b2/x" = absRoot
       ∨ ∃ rest, $"/data/b2/x" = absRoot ++ os.PathSeparator :: rest)
    ∧ inside absRoot $"/data/b2/x".
Proof.
  apply (sanitizePath_returns_contained_target env_data $"b2" $"x" $"/data/b2/x").
  vm_compute. reflexivity.
Defined.

(** C10. A path returned by [sanitizePath] is a fixed point of
    [filepath.Clean]. *)
Theorem sanitizePath_result_is_clean env bucket key p :
  sanitizePath env bucket key = Ok p → filepath.Clean p = p.
Proof. apply sanitizePath_normalized. Qed.

Lemma sanitizePath_result_is_clean_witness :
  filepath.Clean $"/srv/store/b/k" = $"/srv/store/b/k".
Proof.
  apply (sanitizePath_result_is_clean (mkEnv $"./store" (Ok $"/srv")) $"b" $"a/../k").
  vm_compute. reflexivity.
Defined.

(** C4. When the absolute cleaned join of root, bucket and key lies outside
    the tree of the absolute root, [sanitizePath] fails with the
    path-traversal error and returns no path.  This holds for every key, so
    in particular for the keys with a [..] element; root [/data], bucket [b],
    key [../../etc/passwd] is the instance of the witness. *)
Theorem sanitizePath_rejects_escape env bucket key absRoot absTarget :
  Abs env (storageRootDir env) = Ok absRoot →
  Abs env (filepath.Clean (filepath.Join [storageRootDir env; bucket; key])) = Ok absTarget →
  ¬ inside absRoot absTarget →
  sanitizePath env bucket key = Err ErrPathTraversal.
Proof.
  intros Hroot Htarget Hout. rewrite sanitizePath_unfold, Hroot, Htarget.
  destruct (accepted absRoot absTarget) eqn:Hacc; [|done].
  by apply accepted_inside in Hacc.
Qed.

Lemma sanitizePath_rejects_escape_witness :
  sanitizePath env_data $"b" $"../../etc/passwd" = Err ErrPathTraversal.
Proof.
  apply (sanitizePath_rejects_escape env_data $"b" $"../../etc/passwd"
           $"/data" $"/etc/passwd").
  - vm_compute. reflexivity.
  - vm_compute. reflexivity.
  - compute_done.
Defined.

(** A normalized absolute path is the separator followed by its elements,
    joined by separators. *)
Lemma normalized_absolute p :
  normalized p → filepath.IsAbs p = true →
  p = filepath.Separator :: strings.Join (elements p) [filepath.Separator].
Proof.
  unfold normalized. intros Hn Habs.
  pose proof (Clean_unfold p) as Hc. rewrite Hn, Habs in Hc.
  pose proof (cfinal_names true p) as [Hr Hnames].
  assert (p = render true (cfinal true (elements p))) as Hp.
  { by destruct (render true _) eqn:Hout; [unfold render in Hout|]. }
  rewrite Hp at 2. rewrite elements_render
    by (eapply Forall_impl; [done|apply is_name_elem]).
  rewrite Hp at 1. unfold render. by rewrite Hr.
Qed.

(** For normalized absolute paths, and a root other than [/], the test
    accepts exactly the paths in the tree of the root. *)
Lemma inside_accepted absRoot absTarget :
  normalized absRoot → filepath.IsAbs absRoot = true →
  normalized absTarget → filepath.IsAbs absTarget = true →
  absRoot ≠ [filepath.Separator] →
  inside absRoot absTarget → accepted absRoot absTarget = true.
Proof.
  intros Hnr Har Hnt Hat Hne [k Hk].
  pose proof (normalized_absolute _ Hnr Har) as Hr.
  pose proof (normalized_absolute _ Hnt Hat) as Ht.
  apply accepted_spec. rewrite Hk in Ht.
  destruct k as [|e k].
  - left. rewrite app_nil_r in Ht. congruence.
  - right. exists (strings.Join (e :: k) [filepath.Separator]).
    rewrite Join_app_sep in Ht; [|by intros Hnil; rewrite Hnil in Hr|done].
    set (J := strings.Join (elements absRoot) _) in *.
    by rewrite Ht, Hr.
Qed.

(** C5. Under root [/data], bucket [b2] and key [x] resolve to [/data/b2/x],
    whatever the working directory; the path is not rejected although
    [/data/b] is a string prefix of it.  Conversely, under root [/data/b] the
    sibling [/data/b2/x] is rejected although the root is a string prefix of
    it.  In general the test accepts a target exactly when it is the root or
    continues the root after a separator, and on normalized absolute paths
    (the root not being [/]) that is exactly when the target lies in the tree
    of the root, element by element. *)
Theorem sibling_prefix_not_confused :
  (∀ wd, sanitizePath (mkEnv $"/data" wd) $"b2" $"x" = Ok $"/data/b2/x")
  ∧ (∀ wd, sanitizePath (mkEnv $"/data/b" wd) $".." $"b2/x" = Err ErrPathTraversal)
  ∧ (∀ absRoot absTarget,
       accepted absRoot absTarget = true
       ↔ absTarget = absRoot ∨ ∃ rest, absTarget = absRoot ++ os.PathSeparator :: rest)
  ∧ (∀ absRoot absTarget,
       normalized absRoot → filepath.IsAbs absRoot = true →
       normalized absTarget → filepath.IsAbs absTarget = true →
       absRoot ≠ [filepath.Separator] →
       (accepted absRoot absTarget = true ↔ inside absRoot absTarget)).
Proof.
  split; [|split; [|split]].
  - intros wd. vm_compute. reflexivity.
  - intros wd. vm_compute. reflexivity.
  - apply accepted_spec.
  - intros absRoot absTarget Hnr Har Hnt Hat Hne. split.
    + apply accepted_inside.
    + by apply inside_accepted.
Qed.

Lemma sibling_prefix_not_confused_witness :
  (accepted $"/data/b" $"/data/b2/x" = true ↔ inside $"/data/b" $"/data/b2/x")
  ∧ accepted $"/data/b" $"/data/b2/x" = false
  ∧ strings.HasPrefix $"/data/b2/x" $"/data/b" = true.
Proof.
  split; [|split].
  - apply (proj2 (proj2 (proj2 sibling_prefix_not_confused)) $"/data/b" $"/data/b2/x").
    + vm_compute. reflexivity.
    + vm_compute. reflexivity.
    + vm_compute. reflexivity.
    + vm_compute. reflexivity.
    + discriminate.
  - vm_compute. reflexivity.
  - vm_compute. reflexivity.
Defined.

(** ** Collapsing [name/..] *)

Lemma cstep_name_dotdot rooted st a :
  is_name a → cstep rooted (cstep rooted st a) dotdot = st.
Proof.
  intros (_ & _ & Hd & Hdd). rewrite (cstep_name rooted st a) by done.
  rewrite cstep_dotdot. by destruct st.
Qed.

Lemma elements_name_dotdot a c :
  is_name a →
  elements (a ++ $"/../" ++ c) = a :: dotdot :: elements c.
Proof.
  intros Ha%is_name_elem.
  change (a ++ $"/../" ++ c)
    with (a ++ filepath.Separator :: (dotdot ++ filepath.Separator :: c)).
  rewrite !elements_app_sep, !elements_elem by (done || apply dotdot_is_elem). done.
Qed.

Lemma Clean_ext x y :
  filepath.IsAbs x = filepath.IsAbs y →
  cfinal (filepath.IsAbs x) (elements x) = cfinal (filepath.IsAbs x) (elements y) →
  filepath.Clean x = filepath.Clean y.
Proof. intros Habs Hst. rewrite !Clean_unfold, <- Habs. by rewrite Hst. Qed.

Lemma cfinal_collapse rooted E a C :
  is_name a →
  cfinal rooted (E ++ a :: dotdot :: C) = cfinal rooted (E ++ C).
Proof.
  intros Ha. unfold cfinal. rewrite !foldl_app. simpl.
  by rewrite cstep_name_dotdot.
Qed.

Lemma IsAbs_app_cons c s t : filepath.IsAbs ((c :: s) ++ t) = filepath.IsAbs (c :: s).
Proof. simpl. by rewrite !IsAbs_cons. Qed.

(** Cleaning [pre/a/../c] is cleaning [pre/c]. *)
Lemma Clean_collapse_after pre a c :
  is_name a →
  filepath.Clean (pre ++ filepath.Separator :: (a ++ $"/../" ++ c))
  = filepath.Clean (pre ++ filepath.Separator :: c).
Proof.
  intros Ha. apply Clean_ext.
  - destruct pre; [done|]. by rewrite !IsAbs_app_cons.
  - rewrite !elements_app_sep, elements_name_dotdot by done.
    by apply cfinal_collapse.
Qed.

Lemma Clean_collapse a c :
  is_name a → is_elem c →
  filepath.Clean (a ++ $"/../" ++ c) = filepath.Clean c.
Proof.
  intros Ha [Hc1 Hc2]. apply Clean_ext.
  - destruct Ha as (Ha1 & Ha2 & _). destruct a as [|x a]; [done|].
    destruct c as [|y c]; [done|]. rewrite IsAbs_app_cons, !IsAbs_cons.
    apply not_elem_of_cons in Ha2 as [Hx _]. apply not_elem_of_cons in Hc2 as [Hy _].
    apply not_eq_sym, IsPathSeparator_false in Hx.
    apply not_eq_sym, IsPathSeparator_false in Hy. congruence.
  - rewrite elements_name_dotdot by done.
    by apply (cfinal_collapse _ []).
Qed.

Lemma Join_nil_cons elem : filepath.Join ([] :: elem) = filepath.Join elem.
Proof. done. Qed.

Lemma Join_cons_ne e elem :
  e ≠ [] →
  filepath.Join (e :: elem) = filepath.Clean (strings.Join (e :: elem) [filepath.Separator]).
Proof. by destruct e. Qed.

Lemma strings_Join_1 x : strings.Join [x] [filepath.Separator] = x.
Proof. done. Qed.

Lemma strings_Join_2 x y :
  strings.Join [x; y] [filepath.Separator] = x ++ filepath.Separator :: y.
Proof. done. Qed.

Lemma strings_Join_3 x y z :
  strings.Join [x; y; z] [filepath.Separator]
  = (x ++ filepath.Separator :: y) ++ filepath.Separator :: z.
Proof. simpl. by rewrite <- app_assoc. Qed.

Lemma Join_collapse root bucket a c :
  is_name a → is_elem c →
  filepath.Join [root; bucket; a ++ $"/../" ++ c] = filepath.Join [root; bucket; c].
Proof.
  intros Ha Hc.
  assert (a ++ $"/../" ++ c ≠ []) as Hk.
  { destruct Ha as (Ha1 & _). by destruct a. }
  destruct Hc as [Hc1 Hc2].
  destruct root as [|r root].
  - rewrite !Join_nil_cons. destruct bucket as [|b bucket].
    + rewrite !Join_nil_cons, !Join_cons_ne, !strings_Join_1 by done.
      by apply Clean_collapse.
    + rewrite !Join_cons_ne, !strings_Join_2 by done.
      by apply Clean_collapse_after.
  - rewrite !Join_cons_ne, !strings_Join_3 by done.
    by apply Clean_collapse_after.
Qed.

(** C8, for names.  For every bucket, every name [a] (a non-empty segment
    other than [.] and [..]) and every non-empty segment [c], resolving the
    key [a/../c] gives exactly what resolving the key [c] gives: the same
    path when either succeeds, the same error otherwise.  A [name/..] pair
    that normalization collapses is never a reason for rejection. *)
Theorem sanitizePath_collapses_name_dotdot env bucket a c :
  is_name a → is_elem c →
  sanitizePath env bucket (a ++ $"/../" ++ c) = sanitizePath env bucket c.
Proof.
  intros Ha Hc. unfold sanitizePath. by rewrite Join_collapse.
Qed.

Lemma sanitizePath_collapses_name_dotdot_witness :
  sanitizePath env_data $"b" ($"a" ++ $"/../" ++ $"c") = sanitizePath env_data $"b" $"c"
  ∧ sanitizePath env_data $"b" $"c" = Ok $"/data/b/c".
Proof.
  split.
  - apply (sanitizePath_collapses_name_dotdot env_data $"b" $"a" $"c").
    + compute_done.
    + compute_done.
  - vm_compute. reflexivity.
Defined.

(** C8 as stated fails at root [/data], bucket [b], [a = .] and [c = c]:
    [.] and [c] are non-empty segments and both calls succeed, but with
    different paths.  It also fails at bucket [..], [a = a], [c = c], where
    the call does not succeed at all. *)
Lemma name_dotdot_counterexample :
  is_elem $"." ∧ is_elem $"a" ∧ is_elem $"c"
  ∧ sanitizePath env_data $"b" ($"." ++ $"/../" ++ $"c") = Ok $"/data/c"
  ∧ sanitizePath env_data $"b" $"c" = Ok $"/data/b/c"
  ∧ sanitizePath env_data $".." ($"a" ++ $"/../" ++ $"c") = Err ErrPathTraversal
  ∧ ¬ (∃ p, sanitizePath env_data $"b" ($"." ++ $"/../" ++ $"c") = Ok p
            ∧ sanitizePath env_data $"b" $"c" = Ok p).
Proof.
  repeat split; try compute_done.
  intros (p & H1 & H2). vm_compute in H1, H2. congruence.
Qed.

(** ** Keys without [..] *)

Lemma foldl_cstep_no_dotdot rooted ups names l :
  dotdot ∉ l →
  foldl (cstep rooted) (ups, names) l = (ups, reverse (filter (λ e, e ≠ dot) l) ++ names).
Proof.
  revert names. induction l as [|e l IH]; intros names Hl; [done|].
  apply not_elem_of_cons in Hl as [He Hl]. simpl.
  destruct (decide (e = dot)) as [->|Hd].
  - rewrite cstep_dot, filter_cons_False by (by intros ?). by apply IH.
  - rewrite cstep_name by done. simpl. rewrite IH by done.
    rewrite filter_cons_True by done. by rewrite reverse_cons, <- app_assoc.
Qed.

Lemma elements_Clean_abs x :
  filepath.IsAbs x = true →
  elements (filepath.Clean x) = reverse (cfinal true (elements x)).2.
Proof.
  intros Habs. rewrite Clean_unfold, Habs.
  pose proof (cfinal_names true x) as [Hr Hn].
  destruct (render true _) as [|c out] eqn:Hout; [by unfold render in Hout|].
  rewrite <- Hout, elements_render by (eapply Forall_impl; [done|apply is_name_elem]).
  by rewrite Hr.
Qed.

(** Without [..] in bucket and key the cleaned join stays in the tree of
    the cleaned root. *)
Lemma no_dotdot_inside root bucket key :
  filepath.IsAbs root = true →
  dotdot ∉ elements bucket → dotdot ∉ elements key →
  inside (filepath.Clean root)
         (filepath.Clean (strings.Join [root; bucket; key] [filepath.Separator])).
Proof.
  intros Habs Hb Hk. unfold inside.
  assert (filepath.IsAbs (strings.Join [root; bucket; key] [filepath.Separator]) = true)
    as HabsJ.
  { rewrite strings_Join_3. destruct root as [|r root]; [done|].
    rewrite <- app_assoc, IsAbs_app_cons. done. }
  rewrite !elements_Clean_abs by done.
  rewrite strings_Join_3, !elements_app_sep, <- app_assoc.
  unfold cfinal at 2. rewrite foldl_app. fold (cfinal true (elements root)).
  destruct (cfinal true (elements root)) as [ups names].
  rewrite foldl_cstep_no_dotdot.
  - simpl. rewrite reverse_app, reverse_involutive. by apply prefix_app_r.
  - rewrite not_elem_of_app. done.
Qed.

(** The part of C3 that holds: for an absolute root whose cleaned form is
    not [/], and bucket and key without a [..] element, [sanitizePath]
    succeeds with the cleaned join of root, bucket and key. *)
Lemma sanitizePath_without_dotdot env bucket key :
  filepath.IsAbs (storageRootDir env) = true →
  filepath.Clean (storageRootDir env) ≠ [filepath.Separator] →
  dotdot ∉ elements bucket → dotdot ∉ elements key →
  sanitizePath env bucket key
  = Ok (filepath.Clean (strings.Join [storageRootDir env; bucket; key] [filepath.Separator])).
Proof.
  intros Habs Hne Hb Hk. rewrite sanitizePath_unfold.
  set (root := storageRootDir env) in *.
  set (J := strings.Join [root; bucket; key] [filepath.Separator]).
  assert (filepath.Join [root; bucket; key] = filepath.Clean J) as ->.
  { apply Join_cons_ne. by destruct root. }
  assert (filepath.IsAbs J = true) as HabsJ.
  { unfold J. rewrite strings_Join_3. destruct root as [|r root']; [done|].
    by rewrite <- app_assoc, IsAbs_app_cons. }
  unfold Abs. rewrite Habs, !IsAbs_Clean, HabsJ, !Clean_idem.
  rewrite inside_accepted; [done|..].
  - apply Clean_idem.
  - by rewrite IsAbs_Clean.
  - apply Clean_idem.
  - by rewrite IsAbs_Clean.
  - done.
  - by apply no_dotdot_inside.
Qed.

(** C3 at the failing input.  With the storage root [/] (an absolute
    directory path), bucket [b] and key [k] hold no [..] element and their
    cleaned join with the root is [/b/k], yet [sanitizePath] fails with the
    path-traversal error: the test looks for the prefix [//]. *)
Theorem root_slash_rejects_plain_key :
  ∀ wd,
    filepath.IsAbs $"/" = true
    ∧ (dotdot ∉ elements $"b") ∧ (dotdot ∉ elements $"k")
    ∧ filepath.Clean (strings.Join [$"/"; $"b"; $"k"] [filepath.Separator]) = $"/b/k"
    ∧ inside $"/" $"/b/k"
    ∧ sanitizePath (mkEnv $"/" wd) $"b" $"k" = Err ErrPathTraversal.
Proof.
  intros wd. repeat split; try compute_done.
Qed.

(** ** The two semantics agree *)

(** Running a program on the in-memory file system produces one of its
    traces. *)
Lemma run_exec {A} (p : prog A) fs :
  exec p (memfs.run p fs).2 (memfs.run p fs).1.1.
Proof.
  revert fs. induction p as [a|format args k IH|path perm k IH|path k IH|path k IH
                             |path k IH|f src k IH|f k IH|f k IH]; intros fs; simpl.
  - constructor.
  - specialize (IH fs). destruct (memfs.run k fs) as [[a fs'] t]. by constructor.
  - destruct (memfs.mkdir_all path fs) as [err fs1]. specialize (IH err fs1).
    destruct (memfs.run (k err) fs1) as [[a fs'] t]. by constructor.
  - destruct (memfs.create path fs) as [res fs1]. specialize (IH res fs1).
    destruct (memfs.run (k res) fs1) as [[a fs'] t]. by constructor.
  - destruct (memfs.open path fs) as [res fs1]. specialize (IH res fs1).
    destruct (memfs.run (k res) fs1) as [[a fs'] t]. by constructor.
  - destruct (memfs.remove path fs) as [err fs1]. specialize (IH err fs1).
    destruct (memfs.run (k err) fs1) as [[a fs'] t]. by constructor.
  - destruct (memfs.copy_to f src fs) as [err fs1]. specialize (IH err fs1).
    destruct (memfs.run (k err) fs1) as [[a fs'] t]. by constructor.
  - specialize (IH (memfs.copy_from f fs) fs).
    destruct (memfs.run (k (memfs.copy_from f fs)) fs) as [[a fs'] t]. by constructor.
  - specialize (IH fs). destruct (memfs.run k fs) as [[a fs'] t]. by constructor.
Qed.

(** A program that is already done makes no call. *)
Lemma exec_Ret_inv {A} (a b : A) t : exec (Ret a) t b → t = [] ∧ b = a.
Proof. by inversion 1. Qed.

Lemma exec_Log_inv {A} format args (k : prog A) t a :
  exec (Log format args k) t a → ∃ t', t = EvLog format args :: t' ∧ exec k t' a.
Proof. inversion 1; subst. by eexists. Qed.

Lemma exec_MkdirAll_inv {A} path perm (k : option error → prog A) t a :
  exec (MkdirAll path perm k) t a →
  ∃ err t', t = EvMkdirAll path perm err :: t' ∧ exec (k err) t' a.
Proof. inversion 1; subst. by eexists _, _. Qed.

Lemma exec_Create_inv {A} path (k : result File → prog A) t a :
  exec (Create path k) t a → ∃ res t', t = EvCreate path res :: t' ∧ exec (k res) t' a.
Proof. inversion 1; subst. by eexists _, _. Qed.

Lemma exec_Open_inv {A} path (k : result File → prog A) t a :
  exec (Open path k) t a → ∃ res t', t = EvOpen path res :: t' ∧ exec (k res) t' a.
Proof. inversion 1; subst. by eexists _, _. Qed.

Lemma exec_Remove_inv {A} path (k : option error → prog A) t a :
  exec (Remove path k) t a → ∃ err t', t = EvRemove path err :: t' ∧ exec (k err) t' a.
Proof. inversion 1; subst. by eexists _, _. Qed.

Lemma exec_CopyTo_inv {A} f src (k : option error → prog A) t a :
  exec (CopyTo f src k) t a → ∃ err t', t = EvCopyTo f src err :: t' ∧ exec (k err) t' a.
Proof. inversion 1; subst. by eexists _, _. Qed.

Lemma exec_CopyFrom_inv {A} f (k : str * option error → prog A) t a :
  exec (CopyFrom f k) t a → ∃ res t', t = EvCopyFrom f res :: t' ∧ exec (k res) t' a.
Proof. inversion 1; subst. by eexists _, _. Qed.

Lemma exec_Close_inv {A} f (k : prog A) t a :
  exec (Close f k) t a → ∃ t', t = EvClose f :: t' ∧ exec k t' a.
Proof. inversion 1; subst. by eexists. Qed.

(** ** Parsing the request path *)

Lemma TrimPrefix_double_slash rest :
  strings.TrimPrefix (filepath.Separator :: filepath.Separator :: rest) $"/"
  = filepath.Separator :: rest.
Proof. done. Qed.

Lemma parse_path_double_slash rest :
  parse_path (filepath.Separator :: filepath.Separator :: rest) = MissingBucket.
Proof.
  unfold parse_path, strings.SplitN. rewrite TrimPrefix_double_slash, Nat.add_1_r. done.
Qed.

(** What the outcome of parsing says about the tests the handlers make. *)
Lemma parse_cases p :
  let parts := strings.SplitN (strings.TrimPrefix p $"/") "/" 2 in
  match parse_path p with
  | MissingBucket =>
      bool_decide (length parts < 1) || str_eqb (index parts 0) [] = true
  | MissingKey =>
      bool_decide (length parts < 1) || str_eqb (index parts 0) [] = false
      ∧ bool_decide (length parts = 2) = false
  | Object bucket key =>
      bool_decide (length parts < 1) || str_eqb (index parts 0) [] = false
      ∧ bool_decide (length parts = 2) = true
      ∧ index parts 0 = bucket ∧ index parts 1 = key
  end.
Proof.
  intros parts. unfold parse_path. fold parts.
  destruct (bool_decide (length parts < 1) || str_eqb (index parts 0) []); [done|].
  by destruct (bool_decide (length parts = 2)).
Qed.

(** Rewrite the tests of a handler by the outcome of parsing. *)
Ltac parsed_as Hparse :=
  let H := fresh "Hcases" in
  match type of Hparse with
  | parse_path ?p = _ => pose proof (parse_cases p) as H
  end;
  cbv zeta in H; rewrite Hparse in H;
  first
    [ let Hb := fresh in let Hk := fresh in let H0 := fresh in let H1 := fresh in
      destruct H as (Hb & Hk & H0 & H1); rewrite Hb, Hk, H0, H1; clear Hb Hk H0 H1
    | let Hb := fresh in let Hk := fresh in
      destruct H as (Hb & Hk); rewrite Hb, Hk; clear Hb Hk
    | rewrite H; clear H ];
  cbv beta iota.

Lemma status_Error w msg code :
  http.status w = None → http.StatusCode (http.Error w msg code) = code.
Proof. unfold http.Error, http.Write, http.WriteHeader, http.StatusCode. simpl. by intros ->. Qed.

Lemma status_WriteHeader w code :
  http.status w = None → http.StatusCode (http.WriteHeader w code) = code.
Proof. unfold http.WriteHeader, http.StatusCode. by intros ->. Qed.

(** ** The handlers *)

(** C9. On a path that starts with two separators each handler strips one
    of them, finds the empty bucket before the second, and is done at once
    with the 400 response: the program is a bare [Ret], so it makes no call
    at all (no file-system call, no log line) and never reaches
    [sanitizePath]. *)
Theorem double_slash_is_bad_request env w r rest :
  http.URL_Path r = filepath.Separator :: filepath.Separator :: rest →
  http.status w = None →
  let resp := http.Error w $"Bad Request: missing bucket" http.StatusBadRequest in
  strings.TrimPrefix (http.URL_Path r) $"/" = filepath.Separator :: rest
  ∧ index (strings.SplitN (filepath.Separator :: rest) "/" 2) 0 = []
  ∧ (http.Method r = http.MethodPut → uploadHandler env w r = Ret resp)
  ∧ (http.Method r = http.MethodGet → downloadHandler env w r = Ret resp)
  ∧ (http.Method r = http.MethodDelete → deleteHandler env w r = Ret resp)
  ∧ http.StatusCode resp = 400.
Proof.
  intros Hpath Hw resp. rewrite Hpath. split; [done|]. split.
  { unfold strings.SplitN. by rewrite Nat.add_1_r. }
  pose proof (parse_path_double_slash rest) as Hparse.
  unfold uploadHandler, downloadHandler, deleteHandler.
  rewrite Hpath. cbv zeta. parsed_as Hparse.
  repeat split; try (by intros ->).
  by apply status_Error.
Qed.

Lemma double_slash_is_bad_request_witness :
  downloadHandler env_data http.fresh (http.mkRequest $"GET" $"//b/k" [])
  = Ret (http.Error http.fresh $"Bad Request: missing bucket" http.StatusBadRequest)
  ∧ http.StatusCode
      (http.Error http.fresh $"Bad Request: missing bucket" http.StatusBadRequest) = 400.
Proof.
  pose proof (double_slash_is_bad_request env_data http.fresh
                (http.mkRequest $"GET" $"//b/k" []) $"b/k" eq_refl eq_refl)
    as (_ & _ & _ & Hget & _ & Hstatus).
  split; [apply Hget; reflexivity | exact Hstatus].
Defined.

Lemma method_check m : negb (str_eqb m m) = false.
Proof. by rewrite str_eqb_refl. Qed.



(** The requests without a bucket or without a separator after the bucket
    are answered with 400 by a handler that makes no call. *)
Lemma missing_part_is_bad_request env w r :
  http.status w = None →
  parse_path (http.URL_Path r) = MissingBucket ∨ parse_path (http.URL_Path r) = MissingKey →
  ∃ resp,
    http.StatusCode resp = 400
    ∧ (http.Method r = http.MethodPut → uploadHandler env w r = Ret resp)
    ∧ (http.Method r = http.MethodGet → downloadHandler env w r = Ret resp)
    ∧ (http.Method r = http.MethodDelete → deleteHandler env w r = Ret resp).
Proof.
  intros Hw [Hp|Hp]; unfold uploadHandler, downloadHandler, deleteHandler;
    cbv zeta; parsed_as Hp.
  - exists (http.Error w $"Bad Request: missing bucket" http.StatusBadRequest).
    split; [by apply status_Error|]. repeat split; by intros ->.
  - exists (http.Error w $"Bad Request: missing key" http.StatusBadRequest).
    split; [by apply status_Error|]. repeat split; by intros ->.
Qed.

(** C2 at the failing input.  The paths [/] and [/bucket] are recognized as
    lacking a bucket or a key, but [/bucket/] is not: splitting [bucket/] on
    its separator gives two parts, the second one empty, and the handlers go
    on with the empty key.  On an empty file system PUT answers 204 and
    writes the body to the file [/data/bucket], GET answers 404 and DELETE
    answers 204; none answers 400. *)
Theorem empty_key_is_not_rejected :
  parse_path $"/" = MissingBucket
  ∧ parse_path $"/bucket" = MissingKey
  ∧ parse_path $"/bucket/" = Object $"bucket" []
  ∧ sanitizePath env_data $"bucket" [] = Ok $"/data/bucket"
  ∧ (let run := memfs.run (uploadHandler env_data http.fresh
                             (http.mkRequest $"PUT" $"/bucket/" $"zz")) memfs.empty in
     http.StatusCode run.1.1 = 204
     ∧ memfs.node_at run.1.2 $"/data/bucket" = Some (memfs.Reg $"zz" None))
  ∧ http.StatusCode (memfs.run (downloadHandler env_data http.fresh
                                  (http.mkRequest $"GET" $"/bucket/" [])) memfs.empty).1.1
    = 404
  ∧ http.StatusCode (memfs.run (deleteHandler env_data http.fresh
                                  (http.mkRequest $"DELETE" $"/bucket/" [])) memfs.empty).1.1
    = 204.
Proof. repeat split; compute_done. Qed.

(** ** [filepath.Base] *)

Lemma skip_seps_replicate n s :
  filepath.skip_seps (replicate n filepath.Separator ++ s) = filepath.skip_seps s.
Proof. induction n as [|n IH]; [done|]. simpl. apply IH. Qed.

Lemma skip_seps_elem e s :
  is_elem e → filepath.skip_seps (reverse e ++ s) = reverse e ++ s.
Proof.
  intros [He1 He2]. destruct e as [|c e] using rev_ind; [done|].
  rewrite reverse_snoc. simpl.
  apply not_elem_of_app in He2 as [_ Hc%not_elem_of_cons].
  destruct Hc as [Hc _]. apply not_eq_sym, IsPathSeparator_false in Hc. by rewrite Hc.
Qed.

(** The base name is the last element of the path, trailing separators
    aside. *)
Lemma Base_last_elem pre name n :
  is_elem name →
  filepath.Base (pre ++ filepath.Separator :: name ++ replicate n filepath.Separator) = name
  ∧ filepath.Base (name ++ replicate n filepath.Separator) = name.
Proof.
  intros Hname. pose proof Hname as [Hne Hsep].
  assert (filepath.Separator ∉ reverse name) as Hrev.
  { by rewrite elem_of_reverse. }
  assert (reverse (replicate n filepath.Separator) = replicate n filepath.Separator) as Hrep.
  { induction n as [|n IH]; [done|]. rewrite replicate_S_end at 1.
    by rewrite reverse_snoc, IH. }
  unfold filepath.Base. split.
  - destruct (pre ++ _) eqn:Heq; [by destruct pre|]. rewrite <- Heq.
    rewrite reverse_app, reverse_cons, reverse_app, Hrep, <- !app_assoc.
    rewrite skip_seps_replicate, skip_seps_elem by done.
    simpl. rewrite elem_of_path_app_sep by done.
    rewrite reverse_involutive. by destruct name.
  - destruct (name ++ _) eqn:Heq; [by destruct name|]. rewrite <- Heq.
    rewrite reverse_app, Hrep.
    rewrite <- (app_nil_r (reverse name)), skip_seps_replicate, skip_seps_elem by done.
    rewrite app_nil_r, elem_of_path_id by done.
    rewrite reverse_involutive. by destruct name.
Qed.

(** ** GET *)

Lemma download_headers w key data :
  http.status w = None →
  let w1 := http.Header_Set w $"Content-Type" $"application/octet-stream" in
  let w2 := http.Header_Set w1 $"Content-Disposition" (attachment key) in
  let w3 := http.WriteHeader w2 http.StatusOK in
  let w4 := match data with [] => w3 | _ => http.Write w3 data end in
  http.StatusCode w4 = 200
  ∧ http.Header w4 !! $"Content-Type" = Some $"application/octet-stream"
  ∧ http.Header w4 !! $"Content-Disposition" = Some (attachment key)
  ∧ http.body w4 = http.body w ++ data.
Proof.
  intros Hw w1 w2 w3 w4.
  assert (http.status w3 = Some 200) as Hs3.
  { unfold w3, http.WriteHeader. simpl. by rewrite Hw. }
  assert (http.Header w3 = <[ $"Content-Disposition" := attachment key ]>
                             (<[ $"Content-Type" := $"application/octet-stream" ]>
                                (http.Header w))) as Hh3.
  { unfold w3, http.WriteHeader. simpl. by rewrite Hw. }
  assert (http.body w3 = http.body w) as Hb3.
  { unfold w3, http.WriteHeader. simpl. by rewrite Hw. }
  assert (http.status w4 = Some 200 ∧ http.Header w4 = http.Header w3
          ∧ http.body w4 = http.body w ++ data) as (Hs4 & Hh4 & Hb4).
  { unfold w4. destruct data as [|c data].
    - by rewrite app_nil_r.
    - unfold http.Write, http.WriteHeader. rewrite Hs3. simpl. by rewrite Hb3. }
  repeat split.
  - unfold http.StatusCode. by rewrite Hs4.
  - rewrite Hh4, Hh3. rewrite lookup_insert_ne by discriminate.
    by rewrite lookup_insert_eq.
  - rewrite Hh4, Hh3. by rewrite lookup_insert_eq.
  - done.
Qed.

Ltac not_in_trace H :=
  repeat (apply elem_of_cons in H as [H|H]; [discriminate H|]);
  by apply elem_of_nil in H.

(** What a GET does once its path resolves: it opens the resolved path; if
    that succeeds it answers 200 with the two headers and a body made of the
    bytes the copy delivered, and closes the file. *)
Lemma download_exec env w r bucket key target t resp f :
  http.Method r = http.MethodGet →
  parse_path (http.URL_Path r) = Object bucket key →
  sanitizePath env bucket key = Ok target →
  http.status w = None →
  exec (downloadHandler env w r) t resp →
  EvOpen target (Ok f) ∈ t →
  ∃ data err,
    fs_calls t = [EvOpen target (Ok f); EvCopyFrom f (data, err); EvClose f]
    ∧ http.StatusCode resp = 200
    ∧ http.Header resp !! $"Content-Type" = Some $"application/octet-stream"
    ∧ http.Header resp !! $"Content-Disposition" = Some (attachment key)
    ∧ http.body resp = http.body w ++ data.
Proof.
  intros Hm Hparse Hsan Hw. unfold downloadHandler.
  rewrite Hm, method_check. cbv zeta. parsed_as Hparse. rewrite Hsan. intros Hexec Hin.
  apply exec_Log_inv in Hexec as (t1 & -> & Hexec).
  apply exec_Open_inv in Hexec as (res & t2 & -> & Hexec).
  destruct res as [f'|e].
  - apply exec_CopyFrom_inv in Hexec as ([data err] & t3 & -> & Hexec).
    exists data, err.
    pose proof (download_headers w key data Hw) as Hresp. simpl in Hresp.
    destruct err as [e|].
    + apply exec_Log_inv in Hexec as (t4 & -> & Hexec).
      apply exec_Log_inv in Hexec as (t5 & -> & Hexec).
      apply exec_Close_inv in Hexec as (t6 & -> & Hexec).
      apply exec_Ret_inv in Hexec as [-> ->].
      apply elem_of_cons in Hin as [Hin|Hin]; [discriminate Hin|].
      apply elem_of_cons in Hin as [[= <-]|Hin]; [|not_in_trace Hin].
      split; [done|apply Hresp].
    + apply exec_Log_inv in Hexec as (t5 & -> & Hexec).
      apply exec_Close_inv in Hexec as (t6 & -> & Hexec).
      apply exec_Ret_inv in Hexec as [-> ->].
      apply elem_of_cons in Hin as [Hin|Hin]; [discriminate Hin|].
      apply elem_of_cons in Hin as [[= <-]|Hin]; [|not_in_trace Hin].
      split; [done|apply Hresp].
  - destruct (os.IsNotExist e).
    + apply exec_Ret_inv in Hexec as [-> ->]. not_in_trace Hin.
    + apply exec_Log_inv in Hexec as (t4 & -> & Hexec).
      apply exec_Ret_inv in Hexec as [-> ->]. not_in_trace Hin.
Qed.

(** Unfolding the interpreter one call at a time. *)
Lemma run_Log_eq {A} format args (k : prog A) fs :
  memfs.run (Log format args k) fs
  = ((memfs.run k fs).1.1, (memfs.run k fs).1.2, EvLog format args :: (memfs.run k fs).2).
Proof. simpl. by destruct (memfs.run k fs) as [[? ?] ?]. Qed.

Lemma run_Close_eq {A} f (k : prog A) fs :
  memfs.run (Close f k) fs
  = ((memfs.run k fs).1.1, (memfs.run k fs).1.2, EvClose f :: (memfs.run k fs).2).
Proof. simpl. by destruct (memfs.run k fs) as [[? ?] ?]. Qed.

Lemma run_Open_eq {A} path (k : result File → prog A) fs :
  memfs.run (Open path k) fs
  = let res := (memfs.open path fs).1 in
    let rest := memfs.run (k res) (memfs.open path fs).2 in
    (rest.1.1, rest.1.2, EvOpen path res :: rest.2).
Proof.
  simpl. destruct (memfs.open path fs) as [res fs1]. simpl.
  by destruct (memfs.run (k res) fs1) as [[? ?] ?].
Qed.

Lemma run_CopyFrom_eq {A} f (k : str * option error → prog A) fs :
  memfs.run (CopyFrom f k) fs
  = let res := memfs.copy_from f fs in
    let rest := memfs.run (k res) fs in
    (rest.1.1, rest.1.2, EvCopyFrom f res :: rest.2).
Proof. simpl. by destruct (memfs.run (k (memfs.copy_from f fs)) fs) as [[? ?] ?]. Qed.

Lemma open_existing fs target node :
  memfs.node_at fs target = Some node →
  memfs.open target fs
  = (Ok (length (memfs.opened fs)),
     memfs.mkFS (memfs.nodes fs) (memfs.opened fs ++ [target])).
Proof. unfold memfs.open. by intros ->. Qed.

Lemma copy_from_opened fs target bytes fault :
  memfs.node_at fs target = Some (memfs.Reg bytes fault) →
  memfs.copy_from (length (memfs.opened fs))
    (memfs.mkFS (memfs.nodes fs) (memfs.opened fs ++ [target]))
  = match fault with
    | Some n => if bool_decide (n < length bytes)
                then (take n bytes, Some (PathError $"read" target syscall.EIO))
                else (bytes, None)
    | None => (bytes, None)
    end.
Proof.
  intros Hnode. unfold memfs.copy_from. cbn [memfs.opened].
  rewrite list_lookup_middle by done.
  change (memfs.node_at {| memfs.nodes := memfs.nodes fs;
                           memfs.opened := memfs.opened fs ++ [target] |} target)
    with (memfs.node_at fs target).
  rewrite Hnode. by destruct fault.
Qed.

(** On the in-memory file system: a GET of an existing regular file answers
    with all its bytes when the device is sound, and with the bytes before
    the fault otherwise. *)
Lemma download_run env r bucket key target fs bytes fault :
  http.Method r = http.MethodGet →
  parse_path (http.URL_Path r) = Object bucket key →
  sanitizePath env bucket key = Ok target →
  memfs.node_at fs target = Some (memfs.Reg bytes fault) →
  let run := memfs.run (downloadHandler env http.fresh r) fs in
  EvOpen target (Ok (length (memfs.opened fs))) ∈ run.2
  ∧ http.body run.1.1 =
      match fault with
      | Some n => if bool_decide (n < length bytes) then take n bytes else bytes
      | None => bytes
      end.
Proof.
  intros Hm Hparse Hsan Hnode run. subst run.
  unfold downloadHandler.
  rewrite Hm, method_check. cbv zeta. parsed_as Hparse. rewrite Hsan.
  rewrite run_Log_eq, run_Open_eq, (open_existing _ _ _ Hnode).
  cbn [fst snd]. cbv zeta. cbn [fst snd].
  rewrite run_CopyFrom_eq, (copy_from_opened _ _ _ _ Hnode).
  cbv zeta. cbn [fst snd]. split.
  { apply elem_of_cons. right. apply elem_of_cons. by left. }
  destruct fault as [n|]; [case_bool_decide|]; cbv beta iota zeta;
    rewrite ?run_Log_eq, run_Close_eq; cbn [fst snd memfs.run].
  - by destruct (take n bytes).
  - by destruct bytes.
  - by destruct bytes.
Qed.

(** C7, for a copy that completes.  For a GET request whose path parses and resolves:
    whenever opening the resolved path succeeds, the handler answers 200 with
    [Content-Type: application/octet-stream] and [Content-Disposition:
    attachment] naming the base of the key, and its body is exactly the bytes
    the copy delivered from the opened file.  On the in-memory file system
    these are all the bytes of a regular file on a sound device, unchanged in
    content and length.  The file name is the last element of the key (not
    of the bucket), trailing separators aside. *)
Theorem download_streams_file env r bucket key target :
  http.Method r = http.MethodGet →
  parse_path (http.URL_Path r) = Object bucket key →
  sanitizePath env bucket key = Ok target →
  (∀ w t resp f,
     http.status w = None →
     exec (downloadHandler env w r) t resp →
     EvOpen target (Ok f) ∈ t →
     ∃ data err,
       fs_calls t = [EvOpen target (Ok f); EvCopyFrom f (data, err); EvClose f]
       ∧ http.StatusCode resp = 200
       ∧ http.Header resp !! $"Content-Type" = Some $"application/octet-stream"
       ∧ http.Header resp !! $"Content-Disposition" = Some (attachment key)
       ∧ http.body resp = http.body w ++ data)
  ∧ (∀ fs bytes,
       memfs.node_at fs target = Some (memfs.Reg bytes None) →
       let run := memfs.run (downloadHandler env http.fresh r) fs in
       http.StatusCode run.1.1 = 200
       ∧ http.Header run.1.1 !! $"Content-Type" = Some $"application/octet-stream"
       ∧ http.Header run.1.1 !! $"Content-Disposition" = Some (attachment key)
       ∧ http.body run.1.1 = bytes
       ∧ length (http.body run.1.1) = length bytes)
  ∧ (∀ pre name n,
       is_elem name →
       key = pre ++ filepath.Separator :: name ++ replicate n filepath.Separator
       ∨ key = name ++ replicate n filepath.Separator →
       attachment key = $"attachment; filename=" ++ [dquote] ++ name ++ [dquote]).
Proof.
  intros Hm Hparse Hsan. split; [|split].
  - intros w t resp f Hw Hexec Hin. by eapply download_exec.
  - intros fs bytes Hnode run.
    destruct (download_run env r bucket key target fs bytes None Hm Hparse Hsan Hnode)
      as [Hin Hbody]. fold run in Hin, Hbody.
    pose proof (run_exec (downloadHandler env http.fresh r) fs) as Hexec. fold run in Hexec.
    destruct (download_exec env http.fresh r bucket key target _ _ _
                Hm Hparse Hsan eq_refl Hexec Hin) as (data & err & _ & Hs & Hct & Hcd & _).
    by rewrite Hbody.
  - intros pre name n Hname Hkey. unfold attachment.
    destruct (Base_last_elem pre name n Hname) as [H1 H2].
    destruct Hkey as [-> | ->]; by rewrite ?H1, ?H2.
Qed.

Lemma download_streams_file_witness :
  let r := http.mkRequest $"GET" $"/b/k" [] in
  let run := memfs.run (downloadHandler env_data http.fresh r) fs_sound in
  http.StatusCode run.1.1 = 200
  ∧ http.Header run.1.1 !! $"Content-Type" = Some $"application/octet-stream"
  ∧ http.Header run.1.1 !! $"Content-Disposition" = Some (attachment $"k")
  ∧ http.body run.1.1 = $"abc"
  ∧ length (http.body run.1.1) = length $"abc".
Proof.
  intros r run.
  assert (http.Method r = http.MethodGet) as Hm by (vm_compute; reflexivity).
  assert (parse_path (http.URL_Path r) = Object $"b" $"k") as Hp by (vm_compute; reflexivity).
  assert (sanitizePath env_data $"b" $"k" = Ok $"/data/b/k") as Hs by (vm_compute; reflexivity).
  assert (memfs.node_at fs_sound $"/data/b/k" = Some (memfs.Reg $"abc" None)) as Hn
    by (vm_compute; reflexivity).
  exact (proj1 (proj2 (download_streams_file env_data r $"b" $"k" $"/data/b/k" Hm Hp Hs))
           fs_sound $"abc" Hn).
Defined.

(** C7 as stated fails on a failing device: the object [/data/b/k] exists
    with the bytes [abc] and opens successfully, the status is 200, but the
    read fails after one byte and the body is [a]. *)
Lemma download_partial_body_counterexample :
  let r := http.mkRequest $"GET" $"/b/k" [] in
  let run := memfs.run (downloadHandler env_data http.fresh r) fs_faulty in
  parse_path (http.URL_Path r) = Object $"b" $"k"
  ∧ sanitizePath env_data $"b" $"k" = Ok $"/data/b/k"
  ∧ memfs.node_at fs_faulty $"/data/b/k" = Some (memfs.Reg $"abc" (Some 1))
  ∧ fs_calls run.2 =
      [EvOpen $"/data/b/k" (Ok 0);
       EvCopyFrom 0 ($"a", Some (PathError $"read" $"/data/b/k" syscall.EIO));
       EvClose 0]
  ∧ http.StatusCode run.1.1 = 200
  ∧ http.body run.1.1 = $"a"
  ∧ http.body run.1.1 ≠ $"abc".
Proof.
  intros r run. repeat split; compute_done.
Qed.

(** ** PUT *)

(** A PUT request whose path parses and resolves answers 204 exactly when
    making the parent directories, creating the file and copying the body
    all succeed; every failure among them gives 500. *)
Lemma upload_exec env w r bucket key target t resp :
  http.Method r = http.MethodPut →
  parse_path (http.URL_Path r) = Object bucket key →
  sanitizePath env bucket key = Ok target →
  http.status w = None →
  exec (uploadHandler env w r) t resp →
  (http.StatusCode resp = 204 ∨ http.StatusCode resp = 500)
  ∧ (http.StatusCode resp = 204 ↔
     ∃ f, fs_calls t = [EvMkdirAll (filepath.Dir target) 0o755 None;
                        EvCreate target (Ok f);
                        EvCopyTo f (http.Body r) None;
                        EvClose f]).
Proof.
  intros Hm Hparse Hsan Hw. unfold uploadHandler.
  rewrite Hm, method_check. cbv zeta. parsed_as Hparse. rewrite Hsan. intros Hexec.
  pose proof (status_Error w $"Internal Server Error" http.StatusInternalServerError Hw) as H500.
  pose proof (status_WriteHeader w http.StatusNoContent Hw) as H204.
  apply exec_Log_inv in Hexec as (t1 & -> & Hexec).
  apply exec_MkdirAll_inv in Hexec as ([e|] & t2 & -> & Hexec).
  { apply exec_Log_inv in Hexec as (t3 & -> & Hexec).
    apply exec_Ret_inv in Hexec as [-> ->]. rewrite H500.
    split; [by right|]. split; [done|]. by intros [f [=]]. }
  apply exec_Create_inv in Hexec as ([f|e] & t3 & -> & Hexec).
  2:{ apply exec_Log_inv in Hexec as (t4 & -> & Hexec).
      apply exec_Ret_inv in Hexec as [-> ->]. rewrite H500.
      split; [by right|]. split; [done|]. by intros [f [=]]. }
  apply exec_CopyTo_inv in Hexec as ([e|] & t4 & -> & Hexec).
  - apply exec_Log_inv in Hexec as (t5 & -> & Hexec).
    apply exec_Close_inv in Hexec as (t6 & -> & Hexec).
    apply exec_Ret_inv in Hexec as [-> ->]. rewrite H500.
    split; [by right|]. split; [done|]. by intros [f' [=]].
  - apply exec_Log_inv in Hexec as (t5 & -> & Hexec).
    apply exec_Close_inv in Hexec as (t6 & -> & Hexec).
    apply exec_Ret_inv in Hexec as [-> ->]. rewrite H204.
    split; [by left|]. split; [|done]. intros _. by exists f.
Qed.

(** On the in-memory file system an uploaded object is downloaded
    unchanged, and is gone after its deletion. *)
Lemma put_get_delete_get :
  let put := http.mkRequest $"PUT" $"/b/dir/k.txt" $"hello" in
  let get := http.mkRequest $"GET" $"/b/dir/k.txt" [] in
  let del := http.mkRequest $"DELETE" $"/b/dir/k.txt" [] in
  let r1 := memfs.run (serve env_data http.fresh put) memfs.empty in
  let r2 := memfs.run (serve env_data http.fresh get) r1.1.2 in
  let r3 := memfs.run (serve env_data http.fresh del) r2.1.2 in
  let r4 := memfs.run (serve env_data http.fresh get) r3.1.2 in
  http.StatusCode r1.1.1 = 204
  ∧ http.StatusCode r2.1.1 = 200 ∧ http.body r2.1.1 = $"hello"
  ∧ http.StatusCode r3.1.1 = 204
  ∧ http.StatusCode r4.1.1 = 404.
Proof. repeat split; compute_done. Qed.

(** ** The model of [path/filepath] against the package's own tests *)

Lemma filepath_tests :
  passes filepath.Clean cleantests = true
  ∧ passes filepath.Base basetests = true
  ∧ passes filepath.Dir dirtests = true
  ∧ forallb (fun '(elem, want) =>
               str_eqb (filepath.Join (map list_ascii_of_string elem)) $want)
            jointests = true.
Proof. repeat split; vm_compute; reflexivity. Qed.

(** ** All traces of the server *)

(** Take a trace apart along the program that produced it: one case for
    every answer the operating system can give and every test the program
    makes. *)
Ltac exec_split H :=
  cbv beta iota zeta delta [negb] in H;
  lazymatch type of H with
  | exec (Ret _) _ _ => apply exec_Ret_inv in H as [-> ->]
  | exec (Log _ _ _) _ _ =>
      let t := fresh "t" in
      apply exec_Log_inv in H as (t & -> & H); exec_split H
  | exec (MkdirAll _ _ _) _ _ =>
      let t := fresh "t" in let err := fresh "err" in
      apply exec_MkdirAll_inv in H as (err & t & -> & H); exec_split H
  | exec (Create _ _) _ _ =>
      let t := fresh "t" in let res := fresh "res" in
      apply exec_Create_inv in H as (res & t & -> & H); exec_split H
  | exec (Open _ _) _ _ =>
      let t := fresh "t" in let res := fresh "res" in
      apply exec_Open_inv in H as (res & t & -> & H); exec_split H
  | exec (Remove _ _) _ _ =>
      let t := fresh "t" in let err := fresh "err" in
      apply exec_Remove_inv in H as (err & t & -> & H); exec_split H
  | exec (CopyTo _ _ _) _ _ =>
      let t := fresh "t" in let err := fresh "err" in
      apply exec_CopyTo_inv in H as (err & t & -> & H); exec_split H
  | exec (CopyFrom _ _) _ _ =>
      let t := fresh "t" in let res := fresh "res" in
      apply exec_CopyFrom_inv in H as (res & t & -> & H); exec_split H
  | exec (Close _ _) _ _ =>
      let t := fresh "t" in
      apply exec_Close_inv in H as (t & -> & H); exec_split H
  | exec (match ?x with _ => _ end) _ _ =>
      let E := fresh "E" in destruct x eqn:E; exec_split H
  end.

Lemma status_download w key data :
  http.status w = None →
  http.StatusCode
    (match data with
     | [] => http.WriteHeader
               (http.Header_Set
                  (http.Header_Set w $"Content-Type" $"application/octet-stream")
                  $"Content-Disposition"
                  ($"attachment; filename=" ++ [dquote] ++ filepath.Base key ++ [dquote]))
               http.StatusOK
     | _ => http.Write
              (http.WriteHeader
                 (http.Header_Set
                    (http.Header_Set w $"Content-Type" $"application/octet-stream")
                    $"Content-Disposition"
                    ($"attachment; filename=" ++ [dquote] ++ filepath.Base key ++ [dquote]))
                 http.StatusOK) data
     end) = 200.
Proof. intros Hw. apply (download_headers w key data Hw). Qed.

(** Comparing two status codes. *)
Ltac status_cmp :=
  cbv [http.StatusOK http.StatusNoContent http.StatusBadRequest http.StatusNotFound
       http.StatusMethodNotAllowed http.StatusInternalServerError] in *;
  lia.

Ltac status_of Hw :=
  first [ rewrite (status_Error _ _ _ Hw)
        | rewrite (status_WriteHeader _ _ Hw)
        | rewrite (status_download _ _ _ Hw) ].

Lemma str_eqb_false a b : str_eqb a b = false ↔ a ≠ b.
Proof. unfold str_eqb. by rewrite bool_decide_eq_false. Qed.

Lemma implemented_cases m :
  implemented m ↔
  str_eqb m http.MethodPut = true ∨ str_eqb m http.MethodGet = true
  ∨ str_eqb m http.MethodDelete = true.
Proof. unfold implemented. by rewrite !str_eqb_eq. Qed.

(** The methods are told apart by [serve] before a handler runs: a request
    is answered 405 exactly when its method is none of PUT, GET and DELETE,
    and then without any call; each handler answers the same way when it is
    called with a method that is not its own. *)
Theorem method_not_allowed env w r :
  http.status w = None →
  let resp405 := http.Error w $"Method Not Allowed" http.StatusMethodNotAllowed in
  (∀ t resp, exec (serve env w r) t resp →
     (http.StatusCode resp = 405 ↔ ¬ implemented (http.Method r)))
  ∧ (¬ implemented (http.Method r) → serve env w r = Ret resp405)
  ∧ (http.Method r ≠ http.MethodPut → uploadHandler env w r = Ret resp405)
  ∧ (http.Method r ≠ http.MethodGet → downloadHandler env w r = Ret resp405)
  ∧ (http.Method r ≠ http.MethodDelete → deleteHandler env w r = Ret resp405).
Proof.
  intros Hw resp405. split; [|split; [|split; [|split]]].
  - intros t resp Hexec. rewrite implemented_cases.
    unfold serve, uploadHandler, downloadHandler, deleteHandler in Hexec.
    exec_split Hexec; status_of Hw;
      (split; [intros Heq; status_cmp | intros Hn; exfalso; apply Hn; by auto])
      || (split; [intros _ [?|[?|?]]; congruence | done]).
  - rewrite implemented_cases. intros Hn. unfold serve.
    destruct (str_eqb _ http.MethodPut) eqn:E1; [exfalso; apply Hn; auto|].
    destruct (str_eqb _ http.MethodGet) eqn:E2; [exfalso; apply Hn; auto|].
    destruct (str_eqb _ http.MethodDelete) eqn:E3; [exfalso; apply Hn; auto|]. done.
  - intros Hm%str_eqb_false. unfold uploadHandler. by rewrite Hm.
  - intros Hm%str_eqb_false. unfold downloadHandler. by rewrite Hm.
  - intros Hm%str_eqb_false. unfold deleteHandler. by rewrite Hm.
Qed.

Lemma method_not_allowed_witness :
  serve env_data http.fresh (http.mkRequest $"POST" $"/b/k" [])
  = Ret (http.Error http.fresh $"Method Not Allowed" http.StatusMethodNotAllowed).
Proof.
  apply (method_not_allowed env_data http.fresh (http.mkRequest $"POST" $"/b/k" []) eq_refl).
  compute_done.
Defined.

Lemma written_Error w msg code :
  http.status w = None → http.status (http.Error w msg code) = Some code.
Proof. unfold http.Error, http.Write, http.WriteHeader. simpl. by intros ->. Qed.

Lemma written_WriteHeader w code :
  http.status w = None → http.status (http.WriteHeader w code) = Some code.
Proof. unfold http.WriteHeader. by intros ->. Qed.

Lemma written_download w key data :
  http.status w = None →
  http.status
    (match data with
     | [] => http.WriteHeader
               (http.Header_Set
                  (http.Header_Set w $"Content-Type" $"application/octet-stream")
                  $"Content-Disposition"
                  ($"attachment; filename=" ++ [dquote] ++ filepath.Base key ++ [dquote]))
               http.StatusOK
     | _ => http.Write
              (http.WriteHeader
                 (http.Header_Set
                    (http.Header_Set w $"Content-Type" $"application/octet-stream")
                    $"Content-Disposition"
                    ($"attachment; filename=" ++ [dquote] ++ filepath.Base key ++ [dquote]))
                 http.StatusOK) data
     end) = Some 200.
Proof.
  intros Hw. destruct data; unfold http.Write, http.WriteHeader; simpl; by rewrite Hw.
Qed.

Ltac written_of Hw :=
  first [ rewrite (written_Error _ _ _ Hw)
        | rewrite (written_WriteHeader _ _ Hw)
        | rewrite (written_download _ _ _ Hw) ].

(** Every response carries a status that the handler wrote itself, one of
    200, 204, 400, 404, 405 and 500.  200 and 404 are answers to GET only,
    200 only after the file was opened; 204 is an answer to PUT and DELETE
    only, and then nothing but the status was written to the response. *)
Theorem serve_status env w r t resp :
  http.status w = None →
  exec (serve env w r) t resp →
  http.StatusCode resp ∈ statuses
  ∧ http.status resp = Some (http.StatusCode resp)
  ∧ (http.StatusCode resp = 200 →
     http.Method r = http.MethodGet ∧ ∃ p f, EvOpen p (Ok f) ∈ t)
  ∧ (http.StatusCode resp = 404 → http.Method r = http.MethodGet)
  ∧ (http.StatusCode resp = 204 →
     (http.Method r = http.MethodPut ∨ http.Method r = http.MethodDelete)
     ∧ resp = http.WriteHeader w http.StatusNoContent).
Proof.
  intros Hw Hexec. unfold serve, uploadHandler, downloadHandler, deleteHandler in Hexec.
  exec_split Hexec; written_of Hw; status_of Hw.
  all: repeat match goal with
         | H : str_eqb _ _ = true |- _ => apply str_eqb_eq in H
         end.
  all: split; [unfold statuses; set_solver|].
  all: split; [done|].
  all: split; [|split]; intros Heq; try status_cmp.
  all: try done.
  all: try (split; [by auto|done]).
  all: split; [done|]; eexists _, _; apply elem_of_cons; right;
       apply elem_of_cons; by left.
Qed.

Lemma serve_status_witness :
  let r := http.mkRequest $"GET" $"/b/k" [] in
  let run := memfs.run (serve env_data http.fresh r) fs_sound in
  http.StatusCode run.1.1 ∈ statuses
  ∧ http.status run.1.1 = Some (http.StatusCode run.1.1)
  ∧ (http.StatusCode run.1.1 = 200 →
     http.Method r = http.MethodGet ∧ ∃ p f, EvOpen p (Ok f) ∈ run.2)
  ∧ (http.StatusCode run.1.1 = 404 → http.Method r = http.MethodGet)
  ∧ (http.StatusCode run.1.1 = 204 →
     (http.Method r = http.MethodPut ∨ http.Method r = http.MethodDelete)
     ∧ run.1.1 = http.WriteHeader http.fresh http.StatusNoContent).
Proof.
  intros r run.
  apply (serve_status env_data http.fresh r run.2 run.1.1 eq_refl).
  apply run_exec.
Defined.

(** When [sanitizePath] fails, for a path that leaves the root or because
    the working directory cannot be read, the request is answered 400
    "Invalid path" and no file-system call is made; the error itself is not
    reported. *)
Theorem invalid_path_is_bad_request env w r bucket key err t resp :
  http.status w = None →
  parse_path (http.URL_Path r) = Object bucket key →
  sanitizePath env bucket key = Err err →
  implemented (http.Method r) →
  exec (serve env w r) t resp →
  fs_calls t = []
  ∧ resp = http.Error w $"Invalid path" http.StatusBadRequest
  ∧ http.StatusCode resp = 400.
Proof.
  intros Hw Hparse Hsan Hm%implemented_cases.
  unfold serve, uploadHandler, downloadHandler, deleteHandler. cbv zeta.
  parsed_as Hparse. rewrite Hsan. intros Hexec.
  exec_split Hexec; try (destruct Hm as [?|[?|?]]; congruence).
  all: split; [done|]; split; [done|]; by apply status_Error.
Qed.

Lemma invalid_path_is_bad_request_witness :
  let r := http.mkRequest $"PUT" $"/b/../../etc/passwd" $"x" in
  let run := memfs.run (serve env_data http.fresh r) memfs.empty in
  fs_calls run.2 = []
  ∧ run.1.1 = http.Error http.fresh $"Invalid path" http.StatusBadRequest
  ∧ http.StatusCode run.1.1 = 400.
Proof.
  intros r run.
  apply (invalid_path_is_bad_request env_data http.fresh r $"b" $"../../etc/passwd"
           ErrPathTraversal run.2 run.1.1).
  - reflexivity.
  - vm_compute. reflexivity.
  - vm_compute. reflexivity.
  - left. vm_compute. reflexivity.
  - apply run_exec.
Defined.

Lemma sanitizePath_accepted env bucket key target absRoot :
  Abs env (storageRootDir env) = Ok absRoot →
  sanitizePath env bucket key = Ok target →
  accepted absRoot target = true ∧ inside absRoot target.
Proof.
  intros Hroot (absRoot' & Hroot' & _ & Hacc)%sanitizePath_Ok_inv.
  rewrite Hroot in Hroot'. injection Hroot' as <-.
  split; [done|by apply accepted_inside].
Qed.

(** The handlers keep to the storage root: in every trace of the server,
    every path that is created, opened or removed passed the test of
    [sanitizePath], so its elements extend those of the absolute root; the
    only other path handed to the file system is the parent directory of
    such a path, given to [os.MkdirAll]. *)
Theorem serve_confined env w r absRoot t resp :
  Abs env (storageRootDir env) = Ok absRoot →
  exec (serve env w r) t resp →
  Forall (confined absRoot) t.
Proof.
  intros Hroot Hexec. unfold serve, uploadHandler, downloadHandler, deleteHandler in Hexec.
  exec_split Hexec.
  all: repeat match goal with
         | H : sanitizePath _ _ _ = Ok _ |- _ =>
             apply (sanitizePath_accepted _ _ _ _ _ Hroot) in H
         end.
  all: repeat (apply Forall_cons; split); try apply Forall_nil; try exact I; try done.
  all: match goal with
       | H : accepted _ ?a = true ∧ _ |- _ => exists a; by destruct H
       end.
Qed.

Lemma serve_confined_witness :
  let r := http.mkRequest $"PUT" $"/b/dir/k.txt" $"hello" in
  Forall (confined $"/data") (memfs.run (serve env_data http.fresh r) memfs.empty).2.
Proof.
  intros r.
  apply (serve_confined env_data http.fresh r $"/data" _
           (memfs.run (serve env_data http.fresh r) memfs.empty).1.1).
  - vm_compute. reflexivity.
  - apply run_exec.
Defined.

(** Membership in an explicit trace. *)
Ltac in_here :=
  solve [ repeat first [ apply list_elem_of_here | apply list_elem_of_further ] ].

Ltac trace_cases H :=
  repeat (apply elem_of_cons in H as [H|H]; [try discriminate H|]);
  try (by apply elem_of_nil in H).

(** No descriptor is leaked: in every trace of the server, a file that was
    opened or created is closed by the last call of the trace, and nothing
    is closed that the same request did not open or create. *)
Theorem files_are_closed env w r t resp :
  exec (serve env w r) t resp →
  (∀ p f, EvOpen p (Ok f) ∈ t ∨ EvCreate p (Ok f) ∈ t → last t = Some (EvClose f))
  ∧ (∀ f, EvClose f ∈ t → ∃ p, EvOpen p (Ok f) ∈ t ∨ EvCreate p (Ok f) ∈ t).
Proof.
  intros Hexec. unfold serve, uploadHandler, downloadHandler, deleteHandler in Hexec.
  exec_split Hexec.
  all: split; [intros p f [Hin|Hin] | intros f Hin]; trace_cases Hin.
  all: try (injection Hin as -> ->; done).
  all: injection Hin as ->; eexists; first [left; in_here | right; in_here].
Qed.

Lemma files_are_closed_witness :
  let r := http.mkRequest $"GET" $"/b/k" [] in
  let t := (memfs.run (serve env_data http.fresh r) fs_sound).2 in
  (∀ p f, EvOpen p (Ok f) ∈ t ∨ EvCreate p (Ok f) ∈ t → last t = Some (EvClose f))
  ∧ (∀ f, EvClose f ∈ t → ∃ p, EvOpen p (Ok f) ∈ t ∨ EvCreate p (Ok f) ∈ t).
Proof.
  intros r t.
  apply (files_are_closed env_data http.fresh r t
           (memfs.run (serve env_data http.fresh r) fs_sound).1.1).
  apply run_exec.
Defined.

Lemma get_trace env w r t resp :
  http.Method r = http.MethodGet →
  exec (serve env w r) t resp →
  Forall read_only t ∧ length (fs_calls t) ≤ 3.
Proof.
  intros Hm Hexec. unfold serve, uploadHandler, downloadHandler, deleteHandler in Hexec.
  rewrite !Hm in Hexec.
  change (str_eqb http.MethodGet http.MethodPut) with false in Hexec.
  change (str_eqb http.MethodGet http.MethodGet) with true in Hexec.
  exec_split Hexec.
  all: split; [repeat (apply Forall_cons; split); try apply Forall_nil; exact I|].
  all: cbv; lia.
Qed.

(** On the in-memory file system, a program whose calls are all read-only
    leaves the stored nodes as they are. *)
Lemma run_read_only {A} (p : prog A) fs :
  Forall read_only (memfs.run p fs).2 →
  memfs.nodes (memfs.run p fs).1.2 = memfs.nodes fs.
Proof.
  revert fs. induction p as [a|format args k IH|path perm k IH|path k IH|path k IH
                             |path k IH|f src k IH|f k IH|f k IH]; intros fs; simpl.
  - done.
  - specialize (IH fs). destruct (memfs.run k fs) as [[a fs'] t]. simpl in *.
    intros [_ H]%Forall_cons. by apply IH.
  - destruct (memfs.mkdir_all path fs) as [err fs1].
    destruct (memfs.run (k err) fs1) as [[a fs'] t]. by intros [[] _]%Forall_cons.
  - destruct (memfs.create path fs) as [res fs1].
    destruct (memfs.run (k res) fs1) as [[a fs'] t]. by intros [[] _]%Forall_cons.
  - assert (memfs.nodes (memfs.open path fs).2 = memfs.nodes fs) as Hopen.
    { unfold memfs.open. by destruct (memfs.node_at fs path). }
    destruct (memfs.open path fs) as [res fs1]. specialize (IH res fs1).
    destruct (memfs.run (k res) fs1) as [[a fs'] t]. simpl in *.
    intros [_ H]%Forall_cons. rewrite <- Hopen. by apply IH.
  - destruct (memfs.remove path fs) as [err fs1].
    destruct (memfs.run (k err) fs1) as [[a fs'] t]. by intros [[] _]%Forall_cons.
  - destruct (memfs.copy_to f src fs) as [err fs1].
    destruct (memfs.run (k err) fs1) as [[a fs'] t]. by intros [[] _]%Forall_cons.
  - specialize (IH (memfs.copy_from f fs) fs).
    destruct (memfs.run (k (memfs.copy_from f fs)) fs) as [[a fs'] t]. simpl in *.
    intros [_ H]%Forall_cons. by apply IH.
  - specialize (IH fs). destruct (memfs.run k fs) as [[a fs'] t]. simpl in *.
    intros [_ H]%Forall_cons. by apply IH.
Qed.

(** GET only reads: in every trace of a GET request the calls are log
    lines, one [Open] and, when it succeeds, one copy out of the file and its
    [Close]; nothing is created, written or removed.  On the in-memory file
    system a GET leaves every stored object as it was. *)
Theorem get_is_read_only env w r :
  http.Method r = http.MethodGet →
  (∀ t resp, exec (serve env w r) t resp →
     Forall read_only t ∧ length (fs_calls t) ≤ 3)
  ∧ (∀ fs, memfs.nodes (memfs.run (serve env w r) fs).1.2 = memfs.nodes fs).
Proof.
  intros Hm. split.
  - intros t resp. by apply get_trace.
  - intros fs. apply run_read_only.
    eapply get_trace; [done|apply run_exec].
Qed.

Lemma get_is_read_only_witness :
  let r := http.mkRequest $"GET" $"/b/k" [] in
  (∀ t resp, exec (serve env_data http.fresh r) t resp →
     Forall read_only t ∧ length (fs_calls t) ≤ 3)
  ∧ (∀ fs, memfs.nodes (memfs.run (serve env_data http.fresh r) fs).1.2 = memfs.nodes fs).
Proof.
  intros r. apply (get_is_read_only env_data http.fresh r). reflexivity.
Defined.

(** A GET whose [Open] fails makes no further file-system call; it answers
    404 "Not Found" when the error says that the path does not exist, and
    500 for any other error. *)
Theorem get_open_failure env w r bucket key target e t resp :
  http.status w = None →
  http.Method r = http.MethodGet →
  parse_path (http.URL_Path r) = Object bucket key →
  sanitizePath env bucket key = Ok target →
  exec (serve env w r) t resp →
  EvOpen target (Err e) ∈ t →
  fs_calls t = [EvOpen target (Err e)]
  ∧ resp = (if os.IsNotExist e
            then http.Error w $"Not Found" http.StatusNotFound
            else http.Error w $"Internal Server Error" http.StatusInternalServerError)
  ∧ http.StatusCode resp = (if os.IsNotExist e then 404 else 500).
Proof.
  intros Hw Hm Hparse Hsan.
  unfold serve, downloadHandler. rewrite !Hm.
  change (str_eqb http.MethodGet http.MethodPut) with false.
  change (str_eqb http.MethodGet http.MethodGet) with true.
  cbv beta iota zeta delta [negb]. parsed_as Hparse. rewrite Hsan.
  intros Hexec Hin. exec_split Hexec; trace_cases Hin.
  all: injection Hin as <-.
  all: match goal with H : os.IsNotExist _ = _ |- _ => rewrite H end.
  all: split; [done|]; split; [done|]; by apply status_Error.
Qed.

Lemma get_open_failure_witness :
  let r := http.mkRequest $"GET" $"/b/k" [] in
  let e := PathError $"open" $"/data/b/k" syscall.ENOENT in
  let run := memfs.run (serve env_data http.fresh r) memfs.empty in
  fs_calls run.2 = [EvOpen $"/data/b/k" (Err e)]
  ∧ run.1.1 = (if os.IsNotExist e
               then http.Error http.fresh $"Not Found" http.StatusNotFound
               else http.Error http.fresh $"Internal Server Error"
                      http.StatusInternalServerError)
  ∧ http.StatusCode run.1.1 = (if os.IsNotExist e then 404 else 500).
Proof.
  intros r e run.
  apply (get_open_failure env_data http.fresh r $"b" $"k" $"/data/b/k" e run.2 run.1.1).
  - reflexivity.
  - reflexivity.
  - vm_compute. reflexivity.
  - vm_compute. reflexivity.
  - apply run_exec.
  - vm_compute. in_here.
Defined.

Lemma upload_exec_witness :
  let r := http.mkRequest $"PUT" $"/b/dir/k.txt" $"hello" in
  let run := memfs.run (uploadHandler env_data http.fresh r) memfs.empty in
  (http.StatusCode run.1.1 = 204 ∨ http.StatusCode run.1.1 = 500)
  ∧ (http.StatusCode run.1.1 = 204 ↔
     ∃ f, fs_calls run.2 = [EvMkdirAll (filepath.Dir $"/data/b/dir/k.txt") 0o755 None;
                            EvCreate $"/data/b/dir/k.txt" (Ok f);
                            EvCopyTo f (http.Body r) None;
                            EvClose f]).
Proof.
  intros r run.
  apply (upload_exec env_data http.fresh r $"b" $"dir/k.txt" $"/data/b/dir/k.txt").
  - reflexivity.
  - vm_compute. reflexivity.
  - vm_compute. reflexivity.
  - reflexivity.
  - apply run_exec.
Defined.

(** ** The parsing rule *)

Lemma IndexByte_None s c : strings.IndexByte s c = None ↔ c ∉ s.
Proof.
  induction s as [|x s IH]; simpl.
  - split; [intros _; apply not_elem_of_nil|done].
  - case_bool_decide as Hx.
    + split; [done|]. intros H. exfalso. apply H. subst. apply list_elem_of_here.
    + rewrite not_elem_of_cons, <- IH. destruct (strings.IndexByte s c); simpl.
      * split; [done|]. by intros [_ ?].
      * split; [|done]. intros _. split; [by apply not_eq_sym|done].
Qed.

Lemma IndexByte_Some s c m :
  strings.IndexByte s c = Some m →
  (c ∉ take m s) ∧ s = take m s ++ c :: drop (m + 1) s.
Proof.
  revert m. induction s as [|x s IH]; intros m; simpl; [done|].
  case_bool_decide as Hx.
  - intros [= <-]. simpl. split; [apply not_elem_of_nil|]. by rewrite drop_0, Hx.
  - destruct (strings.IndexByte s c) as [m'|] eqn:Hi; [|done]. simpl.
    intros [= <-]. destruct (IH m' eq_refl) as [Hnotin Heq]. simpl. split.
    + apply not_elem_of_cons. split; [by apply not_eq_sym|done].
    + by rewrite <- Heq.
Qed.

Lemma IndexByte_app s c t : c ∉ s → strings.IndexByte (s ++ c :: t) c = Some (length s).
Proof.
  induction s as [|x s IH]; simpl.
  - intros _. by rewrite bool_decide_eq_true_2.
  - intros [Hx Hs]%not_elem_of_cons.
    rewrite bool_decide_eq_false_2 by (by apply not_eq_sym). by rewrite IH.
Qed.

(** Splitting in two at the first separator. *)
Lemma SplitN_2 s c :
  strings.SplitN s c 2 =
    match strings.IndexByte s c with
    | None => [s]
    | Some m => [take m s; drop (m + 1) s]
    end.
Proof.
  unfold strings.SplitN. destruct s as [|x s]; [done|].
  change (length (x :: s) + 1) with (S (length s + 1)). rewrite Nat.add_1_r.
  change (2 `min` S (S (length s))) with 2. done.
Qed.

Lemma TrimPrefix_sep p :
  strings.TrimPrefix p $"/" = match p with
                               | c :: p' => if filepath.IsPathSeparator c then p' else p
                               | [] => []
                               end.
Proof.
  destruct p as [|c p]; [done|]. unfold strings.TrimPrefix. simpl.
  rewrite andb_true_r. unfold filepath.IsPathSeparator, filepath.Separator.
  by case_bool_decide.
Qed.

(** What a request path parses to, in terms of the path without its one
    leading separator: nothing or a separator first means the bucket is
    missing; no separator at all means the key is missing; otherwise the
    bucket is what precedes the first separator and the key is all that
    follows it, further separators included. *)
Theorem parse_path_spec p :
  let s := strings.TrimPrefix p $"/" in
  match parse_path p with
  | MissingBucket => s = [] ∨ ∃ rest, s = filepath.Separator :: rest
  | MissingKey => s ≠ [] ∧ (filepath.Separator ∉ s)
  | Object bucket key =>
      bucket ≠ [] ∧ (filepath.Separator ∉ bucket)
      ∧ s = bucket ++ filepath.Separator :: key
  end.
Proof.
  intros s. unfold parse_path. fold s. rewrite SplitN_2.
  change "/" with filepath.Separator.
  destruct (strings.IndexByte s filepath.Separator) as [m|] eqn:Hi.
  - destruct (IndexByte_Some _ _ _ Hi) as [Hnotin Heq].
    unfold index. simpl.
    unfold str_eqb. case_bool_decide as Hb.
    + right. rewrite Heq, Hb. by eexists.
    + done.
  - apply IndexByte_None in Hi.
    unfold index. simpl.
    unfold str_eqb. case_bool_decide as Hb; [by left|done].
Qed.

(** A bucket without separator and any key are read back from the path
    [/bucket/key], and from [bucket/key]. *)
Theorem parse_path_roundtrip bucket key :
  bucket ≠ [] → filepath.Separator ∉ bucket →
  parse_path (filepath.Separator :: bucket ++ filepath.Separator :: key) = Object bucket key
  ∧ parse_path (bucket ++ filepath.Separator :: key) = Object bucket key.
Proof.
  intros Hne Hsep.
  assert (∀ p, strings.TrimPrefix p $"/" = bucket ++ filepath.Separator :: key →
               parse_path p = Object bucket key) as Hparse.
  { intros p Hp. unfold parse_path. rewrite Hp, SplitN_2.
    change "/" with filepath.Separator. rewrite IndexByte_app by done.
    unfold index. simpl.
    rewrite take_app_length, drop_app_add. simpl. rewrite drop_0.
    unfold str_eqb. by rewrite bool_decide_eq_false_2. }
  split; apply Hparse; rewrite TrimPrefix_sep.
  - done.
  - destruct bucket as [|c bucket]; [done|]. simpl.
    apply not_elem_of_cons in Hsep as [Hc _].
    apply not_eq_sym, IsPathSeparator_false in Hc. by rewrite Hc.
Qed.

Lemma parse_path_roundtrip_witness :
  parse_path (filepath.Separator :: $"b" ++ filepath.Separator :: $"dir/k.txt")
  = Object $"b" $"dir/k.txt"
  ∧ parse_path ($"b" ++ filepath.Separator :: $"dir/k.txt") = Object $"b" $"dir/k.txt".
Proof.
  apply (parse_path_roundtrip $"b" $"dir/k.txt"); compute_done.
Defined.

(** ** More on [sanitizePath] *)

Lemma normalized_absolute_names p :
  normalized p → filepath.IsAbs p = true → Forall is_name (elements p).
Proof.
  unfold normalized. intros Hn Habs.
  pose proof (Clean_unfold p) as Hc. rewrite Hn, Habs in Hc.
  pose proof (cfinal_names true p) as [Hr Hnames].
  assert (p = render true (cfinal true (elements p))) as Hp.
  { by destruct (render true _) eqn:Hout; [unfold render in Hout|]. }
  rewrite Hp at 1. rewrite elements_render
    by (eapply Forall_impl; [done|apply is_name_elem]).
  rewrite Hr by done. simpl. by apply Forall_reverse.
Qed.

(** A path returned by [sanitizePath] is spelled canonically: a separator,
    then names joined by single separators; no element is empty, [.] or
    [..], and there is no trailing separator (the working directory being
    absolute whenever it is consulted). *)
Theorem sanitizePath_result_names env bucket key p :
  wd_absolute env →
  sanitizePath env bucket key = Ok p →
  Forall is_name (elements p)
  ∧ p = filepath.Separator :: strings.Join (elements p) [filepath.Separator].
Proof.
  intros Hwd Hok. pose proof (sanitizePath_normalized _ _ _ _ Hok) as Hnorm.
  apply sanitizePath_Ok_inv in Hok as (absRoot & _ & Htarget & _).
  pose proof (Abs_absolute _ _ _ Hwd Htarget) as Habs.
  split; [by apply normalized_absolute_names | by apply normalized_absolute].
Qed.

Lemma sanitizePath_result_names_witness :
  Forall is_name (elements $"/srv/store/b/k")
  ∧ $"/srv/store/b/k"
    = filepath.Separator :: strings.Join (elements $"/srv/store/b/k") [filepath.Separator].
Proof.
  apply (sanitizePath_result_names (mkEnv $"./store" (Ok $"/srv")) $"b" $"a/.././/k").
  - vm_compute. reflexivity.
  - vm_compute. reflexivity.
Defined.

Lemma IsAbs_strings_Join_3 root bucket key :
  root ≠ [] →
  filepath.IsAbs (strings.Join [root; bucket; key] [filepath.Separator])
  = filepath.IsAbs root.
Proof.
  intros Hne. rewrite strings_Join_3. destruct root as [|r root]; [done|].
  by rewrite <- app_assoc, IsAbs_app_cons.
Qed.

(** With an absolute storage root [sanitizePath] never consults the working
    directory: its result is the same whatever [os.Getwd] answers, also when
    it fails, and the only error it can return is the path-traversal error. *)
Theorem sanitizePath_absolute_root root wd bucket key :
  filepath.IsAbs root = true →
  (∀ wd', sanitizePath (mkEnv root wd) bucket key = sanitizePath (mkEnv root wd') bucket key)
  ∧ (∀ err, sanitizePath (mkEnv root wd) bucket key = Err err → err = ErrPathTraversal).
Proof.
  intros Habs.
  assert (root ≠ []) as Hne by (by destruct root).
  assert (∀ wd0, sanitizePath (mkEnv root wd0) bucket key =
            let target := filepath.Clean (strings.Join [root; bucket; key] [filepath.Separator]) in
            if accepted (filepath.Clean root) target then Ok target
            else Err ErrPathTraversal) as Heq.
  { intros wd0. rewrite sanitizePath_unfold. unfold Abs. cbn [storageRootDir Getwd].
    rewrite Join_cons_ne by done.
    rewrite Habs, !IsAbs_Clean, IsAbs_strings_Join_3, Habs, !Clean_idem by done. done. }
  split.
  - intros wd'. by rewrite !Heq.
  - intros err. rewrite Heq. simpl. by destruct (accepted _ _); intros [= <-].
Qed.

Lemma sanitizePath_absolute_root_witness :
  (∀ wd', sanitizePath (mkEnv $"/data" (Ok $"/srv")) $"b" $"k"
          = sanitizePath (mkEnv $"/data" wd') $"b" $"k")
  ∧ (∀ err, sanitizePath (mkEnv $"/data" (Ok $"/srv")) $"b" $"k" = Err err →
            err = ErrPathTraversal).
Proof.
  apply (sanitizePath_absolute_root $"/data" (Ok $"/srv") $"b" $"k"). reflexivity.
Defined.

(** Normalization is compositional: continuing from any state on the
    elements of a relative path is continuing on the elements of its normal
    form. *)
Lemma foldl_cstep_normal rooted st l :
  Forall is_elem l →
  foldl (cstep rooted) st l
  = foldl (cstep rooted) st
      (replicate (cfinal false l).1 dotdot ++ reverse (cfinal false l).2).
Proof.
  induction l as [|e l IH] using rev_ind; intros Hl; [done|].
  apply Forall_app in Hl as [Hl [He _]%Forall_cons].
  assert (cnames false (cfinal false l)) as [_ Hnames].
  { apply foldl_cstep_names; [|done]. split; [done|constructor]. }
  unfold cfinal in *. rewrite !foldl_snoc, IH by done.
  destruct (foldl (cstep false) (0, []) l) as [ups names]. simpl in *.
  rewrite foldl_app.
  destruct (foldl (cstep rooted) st (replicate ups dotdot)) as [u ns] eqn:HP.
  rewrite foldl_cstep_push by (by apply Forall_reverse). rewrite reverse_involutive.
  destruct (decide (e = dot)) as [->|Hd].
  { rewrite !cstep_dot. simpl. rewrite foldl_app, HP.
    rewrite foldl_cstep_push by (by apply Forall_reverse). by rewrite reverse_involutive. }
  destruct (decide (e = dotdot)) as [->|Hdd].
  { rewrite (cstep_dotdot false ups names). destruct names as [|n names].
    - cbn [fst snd app]. rewrite replicate_S_end.
      change (reverse (@nil str)) with (@nil str).
      rewrite app_nil_r, foldl_snoc, HP. done.
    - apply Forall_cons in Hnames as [_ Hnames]. simpl.
      rewrite (cstep_dotdot rooted u). rewrite foldl_app, HP.
      rewrite foldl_cstep_push by (by apply Forall_reverse).
      by rewrite reverse_involutive. }
  rewrite (cstep_name false) by done. simpl.
  rewrite foldl_app, HP, reverse_cons, foldl_snoc.
  rewrite foldl_cstep_push by (by apply Forall_reverse). by rewrite reverse_involutive.
Qed.

(** Cleaning a relative path before joining it to a directory changes
    nothing. *)
Lemma Clean_join_Clean wd x :
  wd ≠ [] → filepath.IsAbs x = false →
  filepath.Clean (wd ++ filepath.Separator :: filepath.Clean x)
  = filepath.Clean (wd ++ filepath.Separator :: x).
Proof.
  intros Hwd Hx. apply Clean_ext.
  { destruct wd as [|c wd]; [done|]. by rewrite !IsAbs_app_cons. }
  rewrite !elements_app_sep. unfold cfinal. rewrite !foldl_app.
  rewrite (foldl_cstep_normal _ _ (elements x)) by apply elements_are_elems.
  rewrite Clean_unfold, Hx.
  pose proof (cfinal_names false x) as [_ Hn].
  destruct (render false _) as [|c out] eqn:Hout.
  - assert (replicate (cfinal false (elements x)).1 dotdot
            ++ reverse (cfinal false (elements x)).2 = []) as ->.
    { apply (Join_nil_inv _ [filepath.Separator]); [|done].
      apply stack_elems. eapply Forall_impl; [done|apply is_name_elem]. }
    done.
  - rewrite <- Hout. rewrite elements_render; [done|].
    eapply Forall_impl; [done|apply is_name_elem].
Qed.

(** A relative storage root (such as [./storage]) behaves
    exactly as that root made absolute against the working directory: for
    every bucket and key [sanitizePath] returns what it returns for the root
    [wd/root]. *)
Theorem sanitizePath_relative_root env wd bucket key :
  storageRootDir env ≠ [] →
  filepath.IsAbs (storageRootDir env) = false →
  Getwd env = Ok wd →
  filepath.IsAbs wd = true →
  sanitizePath env bucket key
  = sanitizePath (mkEnv (wd ++ filepath.Separator :: storageRootDir env) (Getwd env))
      bucket key.
Proof.
  intros Hne Hrel Hwd Habs.
  assert (wd ≠ []) as Hwdne by (by destruct wd).
  rewrite !sanitizePath_unfold. unfold Abs. cbn [storageRootDir Getwd].
  set (root := storageRootDir env) in *.
  set (J := strings.Join [root; bucket; key] [filepath.Separator]).
  assert (filepath.IsAbs (wd ++ filepath.Separator :: root) = true) as Habs'.
  { destruct wd as [|c wd']; [done|]. by rewrite IsAbs_app_cons. }
  assert (strings.Join [wd ++ filepath.Separator :: root; bucket; key] [filepath.Separator]
          = wd ++ filepath.Separator :: J) as HJ.
  { unfold J. rewrite !strings_Join_3. by rewrite <- !app_assoc. }
  rewrite (Join_cons_ne root) by done. fold J.
  rewrite (Join_cons_ne (wd ++ _)) by (by destruct wd).
  rewrite HJ, !Clean_idem, !IsAbs_Clean.
  unfold J at 1. rewrite IsAbs_strings_Join_3 by done. fold J.
  rewrite Hrel, Hwd, Habs'.
  assert (filepath.IsAbs (wd ++ filepath.Separator :: J) = true) as ->.
  { destruct wd as [|c wd']; [done|]. by rewrite IsAbs_app_cons. }
  rewrite !Join_cons_ne, !strings_Join_2 by done.
  rewrite Clean_join_Clean; [done..|].
  unfold J. by rewrite IsAbs_strings_Join_3.
Qed.

Lemma sanitizePath_relative_root_witness :
  sanitizePath (mkEnv $"./storage" (Ok $"/app")) $"b" $"dir/../k"
  = sanitizePath (mkEnv ($"/app" ++ filepath.Separator :: $"./storage") (Ok $"/app"))
      $"b" $"dir/../k".
Proof.
  apply (sanitizePath_relative_root (mkEnv $"./storage" (Ok $"/app")) $"/app"
           $"b" $"dir/../k").
  - discriminate.
  - reflexivity.
  - reflexivity.
  - reflexivity.
Defined.

(** The storage root itself is a target that [sanitizePath] accepts: for an
    absolute root, a bucket that is a name and the key [..] resolve to the
    cleaned root. *)
Theorem sanitizePath_reaches_root env bucket :
  filepath.IsAbs (storageRootDir env) = true →
  is_name bucket →
  sanitizePath env bucket dotdot = Ok (filepath.Clean (storageRootDir env)).
Proof.
  intros Habs Hb. set (root := storageRootDir env) in *.
  assert (root ≠ []) as Hne by (by destruct root).
  assert (filepath.Join [root; bucket; dotdot] = filepath.Clean root) as HJ.
  { rewrite Join_cons_ne, strings_Join_3 by done. apply Clean_ext.
    - rewrite <- app_assoc. destruct root as [|c root']; [done|].
      by rewrite IsAbs_app_cons.
    - rewrite !elements_app_sep, (elements_elem dotdot), (elements_elem bucket)
        by (apply dotdot_is_elem || by apply is_name_elem).
      rewrite <- (app_assoc (elements root)). cbn [app].
      rewrite (cfinal_collapse _ (elements root) bucket []) by done.
      by rewrite app_nil_r. }
  rewrite sanitizePath_unfold. fold root. rewrite HJ.
  unfold Abs. fold root. rewrite !IsAbs_Clean, Habs, !Clean_idem.
  unfold accepted. by rewrite str_eqb_refl, orb_true_r.
Qed.

Lemma sanitizePath_reaches_root_witness :
  sanitizePath env_data $"b" dotdot = Ok (filepath.Clean (storageRootDir env_data)).
Proof.
  apply (sanitizePath_reaches_root env_data $"b").
  - reflexivity.
  - compute_done.
Defined.

(** ** Objects on the in-memory file system *)

Lemma serve_put env w r :
  http.Method r = http.MethodPut → serve env w r = uploadHandler env w r.
Proof. intros Hm. unfold serve. by rewrite Hm. Qed.

Lemma serve_get env w r :
  http.Method r = http.MethodGet → serve env w r = downloadHandler env w r.
Proof. intros Hm. unfold serve. by rewrite Hm. Qed.

Lemma serve_delete env w r :
  http.Method r = http.MethodDelete → serve env w r = deleteHandler env w r.
Proof. intros Hm. unfold serve. by rewrite Hm. Qed.

Lemma node_at_root fs : memfs.node_at fs [filepath.Separator] = Some memfs.Dir.
Proof. done. Qed.

Lemma node_at_insert_ne m o o' q n p :
  q ≠ p →
  memfs.node_at (memfs.mkFS (<[q := n]> m) o) p = memfs.node_at (memfs.mkFS m o') p.
Proof. intros Hne. unfold memfs.node_at. cbn. by rewrite lookup_insert_ne. Qed.

Lemma node_at_insert_eq m o p n :
  p ≠ [filepath.Separator] →
  memfs.node_at (memfs.mkFS (<[p := n]> m) o) p = Some n.
Proof.
  intros Hne%str_eqb_false. unfold memfs.node_at. rewrite Hne. cbn.
  by rewrite lookup_insert_eq.
Qed.

Lemma node_at_delete_ne m o o' q p :
  q ≠ p →
  memfs.node_at (memfs.mkFS (delete q m) o) p = memfs.node_at (memfs.mkFS m o') p.
Proof. intros Hne. unfold memfs.node_at. cbn. by rewrite lookup_delete_ne. Qed.

Lemma node_at_delete_eq m o p :
  p ≠ [filepath.Separator] →
  memfs.node_at (memfs.mkFS (delete p m) o) p = None.
Proof.
  intros Hne%str_eqb_false. unfold memfs.node_at. rewrite Hne. cbn.
  by rewrite lookup_delete_eq.
Qed.

Lemma node_at_eta fs : memfs.mkFS (memfs.nodes fs) (memfs.opened fs) = fs.
Proof. by destruct fs. Qed.

(** [MkdirAll] keeps every node there is. *)
Lemma mkdirs_keeps dirs fs p n :
  memfs.node_at fs p = Some n → memfs.node_at (memfs.mkdirs dirs fs).2 p = Some n.
Proof.
  revert fs. induction dirs as [|d dirs IH]; intros fs Hp; [done|]. simpl.
  destruct (memfs.node_at fs d) as [[|data fault]|] eqn:Hd; [by apply IH|done|].
  apply IH. rewrite (node_at_insert_ne _ _ (memfs.opened fs)) by congruence.
  by rewrite node_at_eta.
Qed.

(** [Create] answers with a descriptor only for a path other than the root,
    and then leaves an empty regular file there. *)
Lemma create_Ok target fs f fs1 :
  memfs.create target fs = (Ok f, fs1) →
  target ≠ [filepath.Separator]
  ∧ f = length (memfs.opened fs)
  ∧ fs1 = memfs.mkFS (<[target := memfs.Reg [] None]> (memfs.nodes fs))
            (memfs.opened fs ++ [target]).
Proof.
  unfold memfs.create.
  destruct (memfs.node_at fs (filepath.Dir target)) as [[|? ?]|]; [|done..].
  destruct (memfs.node_at fs target) as [[|? ?]|] eqn:Ht; [done|..].
  all: intros [= <- <-]; split; [|done].
  all: intros ->; by rewrite node_at_root in Ht.
Qed.

Lemma create_Err target fs e fs1 :
  memfs.create target fs = (Err e, fs1) → fs1 = fs.
Proof.
  unfold memfs.create.
  destruct (memfs.node_at fs (filepath.Dir target)) as [[|? ?]|]; [|by intros [= _ <-]..].
  destruct (memfs.node_at fs target) as [[|? ?]|]; [by intros [= _ <-]|done..].
Qed.

Lemma copy_to_created m o target src :
  memfs.copy_to (length o) src
    (memfs.mkFS (<[target := memfs.Reg [] None]> m) (o ++ [target]))
  = (None, memfs.mkFS (<[target := memfs.Reg src None]> (<[target := memfs.Reg [] None]> m))
             (o ++ [target])).
Proof.
  unfold memfs.copy_to. cbn [memfs.opened memfs.nodes].
  rewrite list_lookup_middle by done. by rewrite lookup_insert_eq.
Qed.

(** What a PUT leaves on the in-memory file system: when it answers 204 the
    resolved path holds the request body; in every case each node at another
    path is still there. *)
Lemma upload_run env r bucket key target fs :
  http.Method r = http.MethodPut →
  parse_path (http.URL_Path r) = Object bucket key →
  sanitizePath env bucket key = Ok target →
  let run := memfs.run (uploadHandler env http.fresh r) fs in
  (http.StatusCode run.1.1 = 204 →
   memfs.node_at run.1.2 target = Some (memfs.Reg (http.Body r) None))
  ∧ (∀ p n, p ≠ target → memfs.node_at fs p = Some n →
            memfs.node_at run.1.2 p = Some n).
Proof.
  intros Hm Hparse Hsan run. subst run. unfold uploadHandler.
  rewrite Hm, method_check. cbv zeta. parsed_as Hparse. rewrite Hsan.
  cbn [memfs.run].
  pose proof (λ p n, mkdirs_keeps (memfs.ancestors_from [] (filepath.Dir target)) fs p n)
    as Hkeep.
  fold (memfs.mkdir_all (filepath.Dir target) fs) in Hkeep.
  destruct (memfs.mkdir_all (filepath.Dir target) fs) as [[e|] fs1].
  { cbn [memfs.run fst snd]. split; [|by intros p n _; apply Hkeep].
    rewrite status_Error by done. intros; status_cmp. }
  cbn [snd] in Hkeep. cbn [memfs.run].
  destruct (memfs.create target fs1) as [[f|e] fs2] eqn:Hcr.
  2:{ apply create_Err in Hcr as ->. cbn [memfs.run fst snd].
      split; [|by intros p n _; apply Hkeep].
      rewrite status_Error by done. intros; status_cmp. }
  apply create_Ok in Hcr as (Hroot & -> & ->). cbn [memfs.run].
  rewrite copy_to_created. cbn [memfs.run fst snd]. split.
  - intros _. by apply node_at_insert_eq.
  - intros p n Hp Hnode.
    rewrite !(node_at_insert_ne _ _ (memfs.opened fs1)), node_at_eta by done.
    by apply Hkeep.
Qed.

(** What a DELETE leaves: when it answers 204 nothing is at the resolved
    path; in every case the other paths are as before. *)
Lemma delete_run env r bucket key target fs :
  http.Method r = http.MethodDelete →
  parse_path (http.URL_Path r) = Object bucket key →
  sanitizePath env bucket key = Ok target →
  let run := memfs.run (deleteHandler env http.fresh r) fs in
  (http.StatusCode run.1.1 = 204 → memfs.node_at run.1.2 target = None)
  ∧ (∀ p, p ≠ target → memfs.node_at run.1.2 p = memfs.node_at fs p).
Proof.
  intros Hm Hparse Hsan run. subst run. unfold deleteHandler.
  rewrite Hm, method_check. cbv zeta. parsed_as Hparse. rewrite Hsan.
  cbn [memfs.run]. unfold memfs.remove.
  destruct (memfs.node_at fs target) as [[|data fault]|] eqn:Ht.
  - destruct (memfs.has_child fs target).
    { cbn [memfs.run os.IsNotExist fst snd]. split; [|done].
      rewrite status_Error by done. intros; status_cmp. }
    destruct (str_eqb target [filepath.Separator]) eqn:Hroot.
    { cbn [memfs.run os.IsNotExist fst snd]. split; [|done].
      rewrite status_Error by done. intros; status_cmp. }
    apply str_eqb_false in Hroot. cbn [memfs.run fst snd]. split.
    + intros _. by apply node_at_delete_eq.
    + intros p Hp. by rewrite (node_at_delete_ne _ _ (memfs.opened fs)), node_at_eta.
  - assert (target ≠ [filepath.Separator]) as Hroot.
    { intros ->. by rewrite node_at_root in Ht. }
    cbn [memfs.run fst snd]. split.
    + intros _. by apply node_at_delete_eq.
    + intros p Hp. by rewrite (node_at_delete_ne _ _ (memfs.opened fs)), node_at_eta.
  - cbn [memfs.run os.IsNotExist fst snd]. by split.
Qed.



(** Round trip on the in-memory file system: after a PUT that answered 204,
    a GET of the same object answers 200 with exactly the bytes of the PUT's
    body, whatever the file system held before. *)
Theorem put_then_get env rp rg bucket key target fs :
  http.Method rp = http.MethodPut →
  http.Method rg = http.MethodGet →
  parse_path (http.URL_Path rp) = Object bucket key →
  parse_path (http.URL_Path rg) = Object bucket key →
  sanitizePath env bucket key = Ok target →
  http.StatusCode (memfs.run (serve env http.fresh rp) fs).1.1 = 204 →
  let get := memfs.run (serve env http.fresh rg)
               (memfs.run (serve env http.fresh rp) fs).1.2 in
  http.StatusCode get.1.1 = 200
  ∧ http.body get.1.1 = http.Body rp
  ∧ http.Header get.1.1 !! $"Content-Disposition" = Some (attachment key).
Proof.
  intros Hp Hg Hpp Hpg Hsan. rewrite (serve_put _ _ _ Hp), (serve_get _ _ _ Hg).
  intros H204 get.
  destruct (upload_run env rp bucket key target fs Hp Hpp Hsan) as [Hnode _].
  specialize (Hnode H204).
  destruct (download_run env rg bucket key target _ _ _ Hg Hpg Hsan Hnode) as [Hin Hbody].
  fold get in Hin, Hbody.
  destruct (download_exec env http.fresh rg bucket key target get.2 get.1.1 _
              Hg Hpg Hsan eq_refl (run_exec _ _) Hin)
    as (data & err & _ & H200 & _ & Hdisp & _).
  done.
Qed.

Lemma put_then_get_witness :
  let rp := http.mkRequest $"PUT" $"/b/dir/k.txt" $"hello" in
  let rg := http.mkRequest $"GET" $"/b/dir/k.txt" [] in
  let get := memfs.run (serve env_data http.fresh rg)
               (memfs.run (serve env_data http.fresh rp) fs_sound).1.2 in
  http.StatusCode get.1.1 = 200
  ∧ http.body get.1.1 = http.Body rp
  ∧ http.Header get.1.1 !! $"Content-Disposition" = Some (attachment $"dir/k.txt").
Proof.
  intros rp rg.
  apply (put_then_get env_data rp rg $"b" $"dir/k.txt" $"/data/b/dir/k.txt" fs_sound).
  - reflexivity.
  - reflexivity.
  - vm_compute. reflexivity.
  - vm_compute. reflexivity.
  - vm_compute. reflexivity.
  - vm_compute. reflexivity.
Defined.



(** A request touches its own object only: whatever the method and the
    outcome, every file and directory stored at a path other than the
    resolved one is still there, unchanged, after the request. *)
Theorem other_objects_kept env r bucket key target fs p n :
  parse_path (http.URL_Path r) = Object bucket key →
  sanitizePath env bucket key = Ok target →
  p ≠ target →
  memfs.node_at fs p = Some n →
  memfs.node_at (memfs.run (serve env http.fresh r) fs).1.2 p = Some n.
Proof.
  intros Hparse Hsan Hp Hnode.
  destruct (str_eqb (http.Method r) http.MethodPut) eqn:Hput.
  { apply str_eqb_eq in Hput. rewrite (serve_put _ _ _ Hput).
    by apply (upload_run env r bucket key target fs Hput Hparse Hsan). }
  destruct (str_eqb (http.Method r) http.MethodGet) eqn:Hget.
  { apply str_eqb_eq in Hget.
    assert (memfs.nodes (memfs.run (serve env http.fresh r) fs).1.2 = memfs.nodes fs) as Heq.
    { apply run_read_only. eapply get_trace; [done|apply run_exec]. }
    unfold memfs.node_at in *. by rewrite Heq. }
  destruct (str_eqb (http.Method r) http.MethodDelete) eqn:Hdel.
  { apply str_eqb_eq in Hdel. rewrite (serve_delete _ _ _ Hdel).
    destruct (delete_run env r bucket key target fs Hdel Hparse Hsan) as [_ Hkeep].
    by rewrite Hkeep. }
  unfold serve. by rewrite Hput, Hget, Hdel.
Qed.

Lemma other_objects_kept_witness :
  let r := http.mkRequest $"PUT" $"/b/k2" $"xyz" in
  memfs.node_at (memfs.run (serve env_data http.fresh r) fs_sound).1.2 $"/data/b/k"
  = Some (memfs.Reg $"abc" None).
Proof.
  intros r.
  apply (other_objects_kept env_data r $"b" $"k2" $"/data/b/k2" fs_sound $"/data/b/k").
  - vm_compute. reflexivity.
  - vm_compute. reflexivity.
  - discriminate.
  - vm_compute. reflexivity.
Defined.
